(** * Product identity resolution engine

    A shallow embedding of [agentic/pydantic_ai/product_grouper.py]:
    tenant sanitization, cosine similarity and its classification,
    seed-based greedy clustering, the product-group lifecycle on the
    key-value store, the per-image orchestrator and the batch pipeline.

    The first part of the file holds the definitions, in the order of the
    source; the second part holds the properties. *)

From Stdlib Require Import ZArith Reals Lra Lia Ascii String.
From Stdlib Require PrimFloat Uint63.
From Corelib Require FloatAxioms SpecFloat FloatOps.
From stdpp Require Import gmap strings list sorting pretty.
From Equations Require Import Equations.

Open Scope string_scope.
Open Scope list_scope.

(** ** Python floats

    The engine computes on Python [float]s.  The code is written once over
    the operations it uses; [ieee] runs it on binary64 values, [exact] reads
    the same code in exact real arithmetic, where the numeric laws the
    engine relies on (a total order, a field, square roots) hold without
    rounding. *)

Class PyFloat (F : Type) := {
  of_int : Z → F;          (* float(n), as in [0 + x] or [x != 0] *)
  fadd : F → F → F;        (* x + y *)
  fmul : F → F → F;        (* x * y *)
  fdiv : F → F → F;        (* x / y *)
  fpow_half : F → F;       (* x ** 0.5 *)
  fge : F → F → bool;      (* x >= y *)
  flt : F → F → bool;      (* x < y *)
  fne : F → F → bool       (* x != y *)
}.

Declare Scope py_scope.
Delimit Scope py_scope with py.
Infix "+~" := fadd (at level 50, left associativity) : py_scope.
Infix "*~" := fmul (at level 40, left associativity) : py_scope.
Infix "/~" := fdiv (at level 40, left associativity) : py_scope.
Infix ">=~" := fge (at level 70, no associativity) : py_scope.
Infix "<~" := flt (at level 70, no associativity) : py_scope.
Infix "!=~" := fne (at level 70, no associativity) : py_scope.
Open Scope py_scope.

(** IEEE 754 binary64, the representation CPython uses. *)
#[export] Instance ieee : PyFloat PrimFloat.float := {|
  of_int z :=
    if (z <? 0)%Z then PrimFloat.opp (PrimFloat.of_uint63 (Uint63.of_Z (- z)))
    else PrimFloat.of_uint63 (Uint63.of_Z z);
  fadd := PrimFloat.add;
  fmul := PrimFloat.mul;
  fdiv := PrimFloat.div;
  fpow_half := PrimFloat.sqrt;
  fge x y := PrimFloat.leb y x;
  flt := PrimFloat.ltb;
  fne x y := negb (PrimFloat.eqb x y)
|}.

(** Exact real arithmetic. *)
#[export] Instance exact : PyFloat R := {|
  of_int := IZR;
  fadd := Rplus;
  fmul := Rmult;
  fdiv := Rdiv;
  fpow_half := R_sqrt.sqrt;
  fge x y := if Rge_dec x y then true else false;
  flt x y := if Rlt_dec x y then true else false;
  fne x y := if Req_dec_T x y then false else true
|}.

(** A decimal literal [m / d], e.g. [dec 92 100] for [0.92]: the quotient
    of two integers is the value the literal denotes (correctly rounded on
    binary64, exact on the reals). *)
Definition dec {F} `{!PyFloat F} (m d : Z) : F := of_int m /~ of_int d.

(** The order laws of float comparison.  A value [x] is a number when
    [x >= x] holds, which leaves out NaN only; numbers are totally ordered,
    and the decimal literals of the module compare as the numbers they
    denote. *)
Class PyFloatOrder (F : Type) `{!PyFloat F} : Prop := {
  fge_number_l (x y : F) : (x >=~ y) = true → (x >=~ x) = true;
  fge_number_r (x y : F) : (x >=~ y) = true → (y >=~ y) = true;
  flt_not_fge (x y : F) :
    (x >=~ x) = true → (y >=~ y) = true → (x <~ y) = negb (x >=~ y);
  fge_total (x y : F) :
    (x >=~ x) = true → (y >=~ y) = true → (x >=~ y) = false → (y >=~ x) = true;
  fge_trans (x y z : F) : (x >=~ y) = true → (y >=~ z) = true → (x >=~ z) = true;
  thresholds_descend :
    (dec 92 100 >=~ dec 85 100) = true ∧ (dec 85 100 >=~ dec 75 100) = true;
  score_09_below_092 : (dec 9 10 >=~ dec 92 100) = false
}.

#[export] Instance exact_order : PyFloatOrder R.
Proof.
  split; unfold dec; cbn [fge flt of_int fdiv exact]; intros;
    repeat match goal with
           | H : context [Rge_dec ?x ?y] |- _ => destruct (Rge_dec x y)
           | |- context [Rge_dec ?x ?y] => destruct (Rge_dec x y)
           | |- context [Rlt_dec ?x ?y] => destruct (Rlt_dec x y)
           end; try split; try done; lra.
Qed.

(** The place of a number on the line: its class (the infinities, the
    negative and the positive finite values, zero) and, within the finite
    classes, the exponent and mantissa with their sign. *)
Definition sf_key (f : SpecFloat.spec_float) : option (Z * Z * Z) :=
  match f with
  | SpecFloat.S754_nan => None
  | SpecFloat.S754_infinity true => Some (-2, 0, 0)%Z
  | SpecFloat.S754_infinity false => Some (2, 0, 0)%Z
  | SpecFloat.S754_zero _ => Some (0, 0, 0)%Z
  | SpecFloat.S754_finite true m e => Some (-1, - e, - Z.pos m)%Z
  | SpecFloat.S754_finite false m e => Some (1, e, Z.pos m)%Z
  end.

Definition key_le (a b : Z * Z * Z) : Prop :=
  (a.1.1 < b.1.1 ∨ (a.1.1 = b.1.1 ∧ (a.1.2 < b.1.2 ∨ (a.1.2 = b.1.2 ∧ a.2 <= b.2))))%Z.

(** [sum(xs)]: a left fold from the integer [0]. *)
Definition py_sum {F} `{!PyFloat F} (xs : list F) : F :=
  fold_left fadd xs (of_int 0).

(** ** Errors

    One constructor per [raise] site of the module (they are [ValueError]s
    in the source, told apart by their message), named after the error
    taxonomy of the engine, and one per exception the runtime or the store
    client raises in the code modelled here. *)

Inductive PyError :=
| InvalidTenantError            (* 'Invalid tenant ID: must contain alphanumeric characters' *)
| EmptyVectorError              (* 'Embedding arrays cannot be empty' *)
| DimensionMismatchError (la lb : nat)
                                (* 'Embedding dimensions must match: {la} vs {lb}' *)
| EmptyGroupError               (* 'Cannot create product group: image_ids array is empty' *)
| ImageTooLargeError            (* 'Image too large: ...MB (max 20MB)' *)
| EmptyImageError               (* 'Image buffer is empty' *)
| InvalidEmbeddingResponse      (* 'Invalid Bedrock response: missing or invalid embedding...' *)
| ValidationError               (* pydantic: a required field of a model is missing or ill-typed *)
| TypeError                     (* a call with a keyword given twice; [json.loads] of a non-string *)
| ConditionalCheckFailedException
                                (* the store: the condition of an update is false *)
| ClientError                   (* the store: an update does not fit the stored attribute *)
| IndexError.                   (* [l[0]] on an empty list *)

#[export] Instance PyError_eq_dec : EqDecision PyError.
Proof. solve_decision. Defined.

(** [except ValueError] catches these (pydantic's [ValidationError] is a
    subclass of [ValueError]). *)
Definition is_ValueError (e : PyError) : bool :=
  match e with
  | TypeError | ConditionalCheckFailedException | ClientError | IndexError => false
  | _ => true
  end.

Inductive Result (A : Type) :=
| Ok (a : A)
| Err (e : PyError).
Arguments Ok {A} a.
Arguments Err {A} e.

(** ** Tenant sanitization *)

(** The character class [a-zA-Z0-9_-] of the regular expression. *)
Definition tenant_char (c : ascii) : bool :=
  let n := nat_of_ascii c in
  (((97 <=? n) && (n <=? 122)) || ((65 <=? n) && (n <=? 90))
   || ((48 <=? n) && (n <=? 57)) || (n =? 95) || (n =? 45))%nat.

(** [re.sub(r'[^a-zA-Z0-9_-]', '', s)] *)
Fixpoint strip_disallowed (s : string) : string :=
  match s with
  | EmptyString => EmptyString
  | String c rest =>
      if tenant_char c then String c (strip_disallowed rest)
      else strip_disallowed rest
  end.

Definition sanitize_tenant (tenant : string) : Result string :=
  let sanitized := strip_disallowed tenant in
  if bool_decide (sanitized = "") then Err InvalidTenantError
  else Ok sanitized.

(** ** Similarity engine *)

Inductive MatchType := SAME_PRODUCT | LIKELY_SAME | POSSIBLY_SAME | DIFFERENT.

#[export] Instance MatchType_eq_dec : EqDecision MatchType.
Proof. solve_decision. Defined.

Definition Metadata := list (string * string).

Definition is_nil {A} (l : list A) : bool :=
  match l with [] => true | _ => false end.

Section Similarity.
Context {F : Type} `{!PyFloat F}.

Definition SIMILARITY_THRESHOLDS (k : MatchType) : F :=
  match k with
  | SAME_PRODUCT => dec 92 100
  | LIKELY_SAME => dec 85 100
  | POSSIBLY_SAME => dec 75 100
  | DIFFERENT => of_int 0
  end.

Definition dot (a b : list F) : F := py_sum (zip_with fmul a b).
Definition norm (a : list F) : F := fpow_half (py_sum (map (λ x, x *~ x) a)).

Definition cosine_similarity (a b : list F) : Result F :=
  if is_nil a || is_nil b then Err EmptyVectorError
  else if negb (length a =? length b)%nat
  then Err (DimensionMismatchError (length a) (length b))
  else
    let dot_product := dot a b in
    let norm_a := norm a in
    let norm_b := norm b in
    Ok (if norm_a *~ norm_b !=~ of_int 0
        then dot_product /~ (norm_a *~ norm_b)
        else of_int 0).

Definition classify_similarity (similarity : F) : MatchType :=
  if similarity >=~ SIMILARITY_THRESHOLDS SAME_PRODUCT then SAME_PRODUCT
  else if similarity >=~ SIMILARITY_THRESHOLDS LIKELY_SAME then LIKELY_SAME
  else if similarity >=~ SIMILARITY_THRESHOLDS POSSIBLY_SAME then POSSIBLY_SAME
  else DIFFERENT.

End Similarity.

(** The bands from strongest to weakest, as a rank. *)
Definition band_rank (k : MatchType) : nat :=
  match k with
  | SAME_PRODUCT => 3
  | LIKELY_SAME => 2
  | POSSIBLY_SAME => 1
  | DIFFERENT => 0
  end.

(** ** Data model *)

Record ImageFeatures {F : Type} := {
  if_id : string;
  if_embedding : option (list F);
  rekognitionLabels : list string;
  rekognitionCategory : option string;
  rekognitionBrand : option string;
  rekognitionSize : option string;
  rekognitionMaterial : option string;
  rekognitionColors : option (list string);
  rekognitionApproved : bool;
  rekognitionModerationReason : option string;
  width : option Z;
  height : option Z;
  aspectRatio : option F;
  megapixels : option F;
  fileSizeMB : option F
}.
Arguments ImageFeatures F : clear implicits.

(** [ImageFeatures(id=..., rekognitionLabels=...)], the other fields at
    their defaults. *)
Definition ImageFeatures_new {F} (id : string) (labels : list string) : ImageFeatures F :=
  {| if_id := id; if_embedding := None; rekognitionLabels := labels;
     rekognitionCategory := None; rekognitionBrand := None; rekognitionSize := None;
     rekognitionMaterial := None; rekognitionColors := None;
     rekognitionApproved := true; rekognitionModerationReason := None;
     width := None; height := None; aspectRatio := None; megapixels := None;
     fileSizeMB := None |}.

(** A value of a [Dict[str, Any]] of settings. *)
Inductive PyVal := PyBool (b : bool) | PyInt (z : Z) | PyStr (s : string).

Record SignalBreakdown {F : Type} := {
  spatial : F;
  feature : F;
  semantic : F;
  composition : F;
  background : F
}.
Arguments SignalBreakdown F : clear implicits.

Record SimilarityScore {F : Type} := {
  totalScore : F;
  signalBreakdown : SignalBreakdown F
}.
Arguments SimilarityScore F : clear implicits.

Record SimilarityThresholds {F : Type} := {
  sameProduct : F;
  likelySame : F;
  possiblySame : F
}.
Arguments SimilarityThresholds F : clear implicits.

Record MultiSignalSettings {F : Type} := {
  enabled : bool;
  weights : list (string * F);
  thresholds : SimilarityThresholds F;
  rekognition : list (string * PyVal);
  titanEmbeddings : list (string * PyVal)
}.
Arguments MultiSignalSettings F : clear implicits.

Record ImageInput := {
  ii_imageId : string;
  ii_buffer : list Byte.byte
}.

Record BatchEmbeddingResult {F : Type} := {
  successCount : nat;
  failureCount : nat;
  totalTimeMs : Z;
  embeddings : list (string * list F);  (* imageId to embedding, in insertion order *)
  errors : list (string * string)       (* imageId and error message *)
}.
Arguments BatchEmbeddingResult F : clear implicits.

Record ProductEmbedding {F : Type} := {
  pe_imageId : string;
  pe_embedding : list F;
  pe_productGroupId : option string;
  pe_metadata : option Metadata
}.
Arguments ProductEmbedding F : clear implicits.

Record ProductGroup {F : Type} := {
  groupId : string;
  primaryImageId : string;
  imageIds : list string;
  productName : option string;
  category : option string;
  confidence : F;
  createdAt : string;
  updatedAt : string;
  pg_tenant : string
}.
Arguments ProductGroup F : clear implicits.

Record SimilarityMatch {F : Type} := {
  sm_imageId : string;
  similarity : F;
  matchType : MatchType;
  sm_groupId : option string
}.
Arguments SimilarityMatch F : clear implicits.

(** Truth value of an [Optional[str]]: [None] and [''] are falsy. *)
Definition truthy_str (s : option string) : bool :=
  match s with
  | Some s => negb (bool_decide (s = ""))
  | None => false
  end.

(** ** Clustering engine *)

Section Clustering.
Context {F : Type} `{!PyFloat F}.

(** [_calculate_multi_signal_similarity]: the module's stand-in returns a
    fixed score of 0.9 with an all-zero breakdown. *)
Definition SignalBreakdown_default : SignalBreakdown F :=
  {| spatial := of_int 0; feature := of_int 0; semantic := of_int 0;
     composition := of_int 0; background := of_int 0 |}.

Definition _calculate_multi_signal_similarity
    (img1 img2 : ImageFeatures F) (settings : MultiSignalSettings F)
    : SimilarityScore F :=
  {| totalScore := dec 9 10; signalBreakdown := SignalBreakdown_default |}.

(** The similarity of the seed [item] and a candidate [other], as computed
    in the inner loop of [cluster_by_similarity]: the multi-signal score
    when it is switched on, the metadata map and the settings are truthy and
    both images have metadata; the cosine of the embeddings otherwise. *)
Definition pair_similarity
    (use_multi_signal : bool)
    (image_metadata_map : option (gmap string (ImageFeatures F)))
    (settings : option (MultiSignalSettings F))
    (item other : ProductEmbedding F) : Result F :=
  match use_multi_signal, image_metadata_map, settings with
  | true, Some metadata_map, Some settings =>
      if bool_decide (metadata_map = ∅)
      then cosine_similarity (pe_embedding item) (pe_embedding other)
      else
        match metadata_map !! pe_imageId item, metadata_map !! pe_imageId other with
        | Some img1_meta, Some img2_meta =>
            Ok (totalScore (_calculate_multi_signal_similarity img1_meta img2_meta settings))
        | _, _ => cosine_similarity (pe_embedding item) (pe_embedding other)
        end
  | _, _, _ => cosine_similarity (pe_embedding item) (pe_embedding other)
  end.

(** The inner loop, [for other in embeddings], for the seed [item]: the
    state is the cluster being built and the set of assigned ids. *)
Fixpoint cluster_scan
    (sim : ProductEmbedding F → ProductEmbedding F → Result F) (threshold : F)
    (item : ProductEmbedding F) (others : list (ProductEmbedding F))
    (cluster : list string) (assigned : gset string)
    : Result (list string * gset string) :=
  match others with
  | [] => Ok (cluster, assigned)
  | other :: rest =>
      if bool_decide (pe_imageId other ∈ assigned)
      then cluster_scan sim threshold item rest cluster assigned
      else
        match sim item other with
        | Err e => Err e
        | Ok similarity =>
            if similarity >=~ threshold
            then cluster_scan sim threshold item rest
                   (cluster ++ [pe_imageId other]) ({[pe_imageId other]} ∪ assigned)
            else cluster_scan sim threshold item rest cluster assigned
        end
  end.

(** The outer loop, [for item in embeddings], over the items still to
    visit; [embeddings] is the whole input, scanned again for every seed. *)
Fixpoint cluster_loop
    (sim : ProductEmbedding F → ProductEmbedding F → Result F) (threshold : F)
    (embeddings items : list (ProductEmbedding F))
    (clusters : list (list string)) (assigned : gset string)
    : Result (list (list string)) :=
  match items with
  | [] => Ok clusters
  | item :: rest =>
      if bool_decide (pe_imageId item ∈ assigned)
      then cluster_loop sim threshold embeddings rest clusters assigned
      else
        match cluster_scan sim threshold item embeddings
                [pe_imageId item] ({[pe_imageId item]} ∪ assigned) with
        | Err e => Err e
        | Ok (cluster, assigned') =>
            cluster_loop sim threshold embeddings rest (clusters ++ [cluster]) assigned'
        end
  end.

(** The body of [cluster_by_similarity] for a given way of scoring a pair. *)
Definition cluster_with
    (sim : ProductEmbedding F → ProductEmbedding F → Result F) (threshold : F)
    (embeddings : list (ProductEmbedding F)) : Result (list (list string)) :=
  cluster_loop sim threshold embeddings embeddings [] ∅.

Definition cluster_by_similarity
    (embeddings : list (ProductEmbedding F)) (threshold : F)
    (use_multi_signal : bool)
    (image_metadata_map : option (gmap string (ImageFeatures F)))
    (settings : option (MultiSignalSettings F))
    : Result (list (list string)) :=
  cluster_with (pair_similarity use_multi_signal image_metadata_map settings)
    threshold embeddings.

(** The candidates the scan for seed [item] adds: the unassigned ones whose
    similarity to the seed reaches the threshold. *)
Definition joins (sim : ProductEmbedding F → ProductEmbedding F → F) (threshold : F)
    (item : ProductEmbedding F) (assigned : gset string) (o : ProductEmbedding F) : Prop :=
  (pe_imageId o ∉ assigned) ∧ (sim item o >=~ threshold) = true.

#[export] Instance joins_dec sim threshold item assigned o :
  Decision (joins sim threshold item assigned o).
Proof. unfold joins. apply _. Defined.

End Clustering.

(** The clustering as the design describes it, for a similarity function
    [sim] that always returns a score: the first item seeds a cluster that
    takes every later item similar enough to the seed; the items left over
    are clustered the same way. *)
Equations? seed_clusters {F : Type} `{!PyFloat F}
    (sim : ProductEmbedding F → ProductEmbedding F → F) (threshold : F)
    (items : list (ProductEmbedding F)) : list (list string)
    by wf (length items) lt :=
  seed_clusters sim threshold [] := [];
  seed_clusters sim threshold (seed :: rest) :=
    (pe_imageId seed
       :: map pe_imageId (filter (λ o, (sim seed o >=~ threshold) = true) rest))
    :: seed_clusters sim threshold
         (filter (λ o, (sim seed o >=~ threshold) ≠ true) rest).
Proof. simpl. pose proof (length_filter (λ o, (sim seed o >=~ threshold) ≠ true) rest). lia. Qed.

(** ** The key-value store

    The store is DynamoDB behind [boto3]: one table of items addressed by a
    partition key [PK] and a sort key [SK], each item a bag of attributes.
    The engine uses four requests: put (replace the item), get, update
    (create the item if it is missing, then set attributes; optionally
    guarded by a condition on the stored item) and query (the items of one
    partition in sort-key order).  Every request is logged with its keys. *)

Inductive Attr {F : Type} :=
| A_S (s : string)         (* a string *)
| A_N (x : F)              (* a number *)
| A_I (z : Z)              (* an integer number (the ttl) *)
| A_L (l : list string)    (* a list of strings *)
| A_Json (v : list F)      (* a string holding [json.dumps] of a list of floats *)
| A_M (m : Metadata)       (* a map, the metadata bag *)
| A_Null.                  (* NULL, what [None] marshals to *)
Arguments Attr F : clear implicits.

Inductive StoreOp := PutItem | GetItem | UpdateItem | Query.

Record Request := {
  rq_op : StoreOp;
  rq_pk : string;
  rq_sk : option string
}.

Record World {F : Type} := {
  table : gmap (string * string) (gmap string (Attr F));
  requests : list Request;     (* the requests sent so far, oldest first *)
  uuid_count : nat             (* how many uuids were drawn *)
}.
Arguments World F : clear implicits.

(** What the engine reads from its environment: the random source of
    [uuid.uuid4()], the clock ([time.strftime] of [time.gmtime()],
    [time.time()] and its integer part) and the embedding model behind
    [bedrock_client.invoke_model], which answers with an embedding or with
    a body that has none. *)
Record Env {F : Type} := {
  uuid4 : nat → string;
  strftime_now : string;
  time_now : F;
  int_time_now : Z;
  invoke_model : list Byte.byte → option (list F)
}.
Arguments Env F : clear implicits.

(** Computations on the store: a request changes the world even when the
    call that sent it ends in an exception. *)
Definition M (F A : Type) : Type := World F → Result A * World F.

Definition ret {F A} (a : A) : M F A := λ w, (Ok a, w).
Definition raise {F A} (e : PyError) : M F A := λ w, (Err e, w).
Definition bind {F A B} (m : M F A) (k : A → M F B) : M F B :=
  λ w, match m w with
       | (Ok a, w') => k a w'
       | (Err e, w') => (Err e, w')
       end.
Definition lift {F A} (r : Result A) : M F A := λ w, (r, w).

(** [try: m except Exception as e: h e] *)
Definition try_except {F A} (m : M F A) (h : PyError → M F A) : M F A :=
  λ w, match m w with
       | (Ok a, w') => (Ok a, w')
       | (Err e, w') => h e w'
       end.

Notation "'let*' x := m 'in' k" := (bind m (λ x, k))
  (at level 10, x name, m at level 100, k at level 200, only parsing) : py_scope.

(** [for x in xs: body x acc], threading the loop's variables [acc]. *)
Fixpoint for_each {F A S} (xs : list A) (body : A → S → M F S) (acc : S) : M F S :=
  match xs with
  | [] => ret acc
  | x :: rest => let* acc' := body x acc in for_each rest body acc'
  end.

Section Store.
Context {F : Type} `{!PyFloat F}.
#[local] Abbreviation Item := (gmap string (Attr F)).

Definition log_request (op : StoreOp) (pk : string) (sk : option string)
    (w : World F) : World F :=
  {| table := table w;
     requests := requests w ++ [{| rq_op := op; rq_pk := pk; rq_sk := sk |}];
     uuid_count := uuid_count w |}.

Definition set_table (t : gmap (string * string) Item) (w : World F) : World F :=
  {| table := t; requests := requests w; uuid_count := uuid_count w |}.

(** An item that holds its key only: what an update starts from when the
    key is not in the table. *)
Definition key_item (pk sk : string) : Item :=
  <["PK" := A_S pk]> (<["SK" := A_S sk]> ∅).

(** [put_item(Item=item)], for an item that carries the key [pk], [sk]. *)
Definition put_item (pk sk : string) (item : Item) : M F () :=
  λ w, (Ok (), set_table (<[(pk, sk) := item]> (table w)) (log_request PutItem pk (Some sk) w)).

(** [get_item(Key=...)]: the response has an ['Item'] when the key exists. *)
Definition get_item (pk sk : string) : M F (option Item) :=
  λ w, (Ok (table w !! (pk, sk)), log_request GetItem pk (Some sk) w).

(** [update_item] with [SET k1 = v1, k2 = v2, ...] and no condition. *)
Definition update_item_set (pk sk : string) (sets : list (string * Attr F)) : M F Item :=
  λ w,
    let old := default (key_item pk sk) (table w !! (pk, sk)) in
    let new := foldl (λ item kv, <[kv.1 := kv.2]> item) old sets in
    (Ok new, set_table (<[(pk, sk) := new]> (table w)) (log_request UpdateItem pk (Some sk) w)).

(** [contains(#attr, :x)] on a list attribute; a missing attribute does not
    contain anything. *)
Definition attr_contains (a : option (Attr F)) (x : string) : bool :=
  match a with
  | Some (A_L l) => bool_decide (x ∈ l)
  | _ => false
  end.

(** [update_item] with
    [SET #a = list_append(if_not_exists(#a, :empty), [x]), #updatedAt = now],
    [ConditionExpression='NOT contains(#a, x)'] and [ReturnValues='ALL_NEW']. *)
Definition update_item_append (pk sk : string) (a x : string) (now : string)
    : M F Item :=
  λ w,
    let w' := log_request UpdateItem pk (Some sk) w in
    let old := default (key_item pk sk) (table w !! (pk, sk)) in
    if attr_contains (old !! a) x then (Err ConditionalCheckFailedException, w')
    else
      match old !! a with
      | None | Some (A_L _) =>
          let l := match old !! a with Some (A_L l) => l | _ => [] end in
          let new := <["updatedAt" := A_S now]> (<[a := A_L (l ++ [x])]> old) in
          (Ok new, set_table (<[(pk, sk) := new]> (table w)) w')
      | Some _ => (Err ClientError, w')
      end.

(** The items of the partition [pk], by ascending sort key. *)
Definition sk_le (x y : string * Item) : Prop := String.leb x.1 y.1 = true.

#[export] Instance sk_le_dec x y : Decision (sk_le x y).
Proof. unfold sk_le. apply _. Defined.

Definition partition_items (t : gmap (string * string) Item) (pk : string)
    : list (string * Item) :=
  merge_sort sk_le
    ((λ kv, (kv.1.2, kv.2)) <$> filter (λ kv, kv.1.1 = pk) (map_to_list t)).

(** [query(KeyConditionExpression='PK = :pk')], all pages together. *)
Definition query (pk : string) (scan_index_forward : bool) : M F (list Item) :=
  λ w,
    let items := (partition_items (table w) pk).*2 in
    (Ok (if scan_index_forward then items else reverse items),
     log_request Query pk None w).

(** [uuid.uuid4()] *)
Definition draw_uuid (env : Env F) : M F string :=
  λ w, (Ok (uuid4 env (uuid_count w)),
        {| table := table w; requests := requests w; uuid_count := S (uuid_count w) |}).

End Store.

(** ** Embedding repository and group lifecycle *)

Definition DEFAULT_TENANT : string := "carousel-labs".

(** 20MB, the limit of the embedding model. *)
Definition MAX_IMAGE_SIZE : N := 20 * 1024 * 1024.

Definition pk_embedding (safe_tenant : string) : string :=
  "TENANT#" +:+ safe_tenant +:+ "#EMBEDDING".
Definition sk_image (image_id : string) : string := "IMAGE#" +:+ image_id.
Definition pk_product_group (safe_tenant : string) : string :=
  "TENANT#" +:+ safe_tenant +:+ "#PRODUCT_GROUP".
Definition sk_group (group_id : string) : string := "GROUP#" +:+ group_id.

(** [len(buffer)] *)
Definition len (buffer : list Byte.byte) : N := N.of_nat (length buffer).

(** What the orchestrator returns. *)
Record GroupingResult {F : Type} := {
  gr_embedding : list F;
  similarImages : list (SimilarityMatch F);
  assignedGroup : option (ProductGroup F);
  isNewGroup : bool
}.
Arguments GroupingResult F : clear implicits.

Section Engine.
Context {F : Type} `{!PyFloat F} (env : Env F).
#[local] Abbreviation Item := (gmap string (Attr F)).

Definition generate_image_embedding (image_buffer : list Byte.byte) : M F (list F) :=
  if (MAX_IMAGE_SIZE <? len image_buffer)%N then raise ImageTooLargeError
  else if is_nil image_buffer then raise EmptyImageError
  else
    match invoke_model env image_buffer with
    | None | Some [] => raise InvalidEmbeddingResponse
    | Some embedding => ret embedding
    end.

(** An optional value as an attribute: [None] is stored as NULL. *)
Definition opt_attr {A} (f : A → Attr F) (o : option A) : Attr F :=
  match o with Some a => f a | None => A_Null end.

Definition store_embedding (image_id : string) (embedding : list F)
    (tenant : string) (metadata : option Metadata) : M F () :=
  let* safe_tenant := lift (sanitize_tenant tenant) in
  let pk := pk_embedding safe_tenant in
  let sk := sk_image image_id in
  let item : Item :=
    list_to_map
      [("PK", A_S pk); ("SK", A_S sk);
       ("imageId", A_S image_id);
       ("embedding", A_Json embedding);
       ("metadata", opt_attr A_M metadata);
       ("entityType", A_S "EMBEDDING");
       ("createdAt", A_N (time_now env));
       ("ttl", A_I (int_time_now env + 30 * 24 * 60 * 60))] in
  put_item pk sk item.

(** An [Optional[str]] field read with [.get]: absent and NULL are [None]. *)
Definition opt_str_field (a : option (Attr F)) : Result (option string) :=
  match a with
  | None | Some A_Null => Ok None
  | Some (A_S s) => Ok (Some s)
  | Some _ => Err ValidationError
  end.

Definition opt_meta_field (a : option (Attr F)) : Result (option Metadata) :=
  match a with
  | None | Some A_Null => Ok None
  | Some (A_M m) => Ok (Some m)
  | Some _ => Err ValidationError
  end.

(** The body of the loop of [get_embeddings] on one item: [Ok None] is an
    item skipped as corrupted (a [KeyError] on ['imageId'] or ['embedding'],
    or a [JSONDecodeError] on a string that is not the JSON of a list of
    floats); other failures are not caught there. *)
Definition parse_embedding (data : Item) : Result (option (ProductEmbedding F)) :=
  match data !! "imageId" with
  | None => Ok None
  | Some image_id =>
      match data !! "embedding" with
      | None => Ok None
      | Some (A_Json embedding) =>
          match image_id, opt_str_field (data !! "productGroupId"),
                opt_meta_field (data !! "metadata") with
          | A_S image_id, Ok group_id, Ok metadata =>
              Ok (Some {| pe_imageId := image_id; pe_embedding := embedding;
                          pe_productGroupId := group_id; pe_metadata := metadata |})
          | _, _, _ => Err ValidationError
          end
      | Some (A_S _) => Ok None
      | Some _ => Err TypeError
      end
  end.

(** The pagination loop of [get_embeddings] over the items of the partition,
    in key order: every page asks for no more than [limit - len(embeddings)]
    items, so the loop reads item after item until the partition is exhausted
    or [limit] embeddings are collected. *)
Fixpoint collect_embeddings (limit : N) (items : list Item)
    (embeddings : list (ProductEmbedding F)) : Result (list (ProductEmbedding F)) :=
  match items with
  | [] => Ok embeddings
  | item :: rest =>
      if (limit <=? N.of_nat (length embeddings))%N then Ok embeddings
      else
        match parse_embedding item with
        | Err e => Err e
        | Ok None => collect_embeddings limit rest embeddings
        | Ok (Some pe) => collect_embeddings limit rest (embeddings ++ [pe])
        end
  end.

Definition get_embeddings (tenant : string) (limit : N)
    : M F (list (ProductEmbedding F)) :=
  let* safe_tenant := lift (sanitize_tenant tenant) in
  let pk := pk_embedding safe_tenant in
  let* items := query pk true in
  lift (collect_embeddings limit items []).

(** [sorted(matches, key=lambda x: x.similarity, reverse=True)]: a stable
    sort by descending similarity, comparing with [<] as Python does. *)
Fixpoint insert_desc (m : SimilarityMatch F) (sorted : list (SimilarityMatch F))
    : list (SimilarityMatch F) :=
  match sorted with
  | [] => [m]
  | x :: rest =>
      if similarity m <~ similarity x then x :: insert_desc m rest
      else m :: x :: rest
  end.

Definition sorted_by_similarity (matches : list (SimilarityMatch F))
    : list (SimilarityMatch F) :=
  foldr insert_desc [] matches.

(** One round of the loop of [find_similar_images]. *)
Definition match_existing (embedding : list F) (exclude_image_id : option string)
    (matches : list (SimilarityMatch F)) (existing : ProductEmbedding F)
    : list (SimilarityMatch F) :=
  if truthy_str exclude_image_id
     && bool_decide (Some (pe_imageId existing) = exclude_image_id)
  then matches
  else
    match cosine_similarity embedding (pe_embedding existing) with
    | Ok similarity =>
        let match_type := classify_similarity similarity in
        if bool_decide (match_type ≠ DIFFERENT)
        then matches ++ [{| sm_imageId := pe_imageId existing;
                            similarity := similarity;
                            matchType := match_type;
                            sm_groupId := pe_productGroupId existing |}]
        else matches
    | Err _ => matches        (* [except ValueError]: logged and skipped *)
    end.

Definition find_similar_images (embedding : list F) (tenant : string)
    (exclude_image_id : option string) : M F (list (SimilarityMatch F)) :=
  let* safe_tenant := lift (sanitize_tenant tenant) in
  let* existing_embeddings := get_embeddings safe_tenant 10000%N in
  let matches := foldl (match_existing embedding exclude_image_id) [] existing_embeddings in
  ret (sorted_by_similarity matches).

(** [group.model_dump()] *)
Definition model_dump (group : ProductGroup F) : list (string * Attr F) :=
  [("groupId", A_S (groupId group));
   ("primaryImageId", A_S (primaryImageId group));
   ("imageIds", A_L (imageIds group));
   ("productName", opt_attr A_S (productName group));
   ("category", opt_attr A_S (category group));
   ("confidence", A_N (confidence group));
   ("createdAt", A_S (createdAt group));
   ("updatedAt", A_S (updatedAt group));
   ("tenant", A_S (pg_tenant group))].

(** [ProductGroup] built from the unmarshalled item: the required fields
    must be there with their types; attributes that are no fields are
    ignored. *)
Definition parse_group (item : Item) : Result (ProductGroup F) :=
  match item !! "groupId", item !! "primaryImageId", item !! "imageIds",
        opt_str_field (item !! "productName"), opt_str_field (item !! "category"),
        item !! "confidence", item !! "createdAt", item !! "updatedAt",
        item !! "tenant" with
  | Some (A_S group_id), Some (A_S primary), Some (A_L image_ids),
    Ok product_name, Ok category,
    Some (A_N confidence), Some (A_S created_at), Some (A_S updated_at),
    Some (A_S tenant) =>
      Ok {| groupId := group_id; primaryImageId := primary; imageIds := image_ids;
            productName := product_name; category := category;
            confidence := confidence; createdAt := created_at;
            updatedAt := updated_at; pg_tenant := tenant |}
  | _, _, _, _, _, _, _, _, _ => Err ValidationError
  end.

Definition link_image_to_group (image_id group_id tenant : string) : M F () :=
  let* safe_tenant := lift (sanitize_tenant tenant) in
  let pk := pk_embedding safe_tenant in
  let sk := sk_image image_id in
  let* _ := update_item_set pk sk
              [("productGroupId", A_S group_id);
               ("updatedAt", A_S (strftime_now env))] in
  ret ().

Definition create_product_group (image_ids : list string) (tenant : string)
    (product_name category : option string) : M F (ProductGroup F) :=
  match image_ids with
  | [] => raise EmptyGroupError
  | first :: _ =>
      let* safe_tenant := lift (sanitize_tenant tenant) in
      let* uuid := draw_uuid env in
      let group_id := "pg_" +:+ uuid in
      let pk := pk_product_group safe_tenant in
      let sk := sk_group group_id in
      let group :=
        {| groupId := group_id;
           primaryImageId := first;
           imageIds := image_ids;
           productName := product_name;
           category := category;
           confidence := of_int 1;
           createdAt := strftime_now env;
           updatedAt := strftime_now env;
           pg_tenant := safe_tenant |} in
      let item : Item :=
        list_to_map
          ([("PK", A_S pk); ("SK", A_S sk)] ++ model_dump group
           ++ [("entityType", A_S "PRODUCT_GROUP");
               ("ttl", A_I (int_time_now env + 90 * 24 * 60 * 60))]) in
      let* _ := put_item pk sk item in
      let* _ := for_each image_ids
                  (λ image_id _, link_image_to_group image_id group_id safe_tenant) () in
      ret group
  end.

Definition get_product_group_by_id (group_id tenant : string)
    : M F (option (ProductGroup F)) :=
  let* safe_tenant := lift (sanitize_tenant tenant) in
  let pk := pk_product_group safe_tenant in
  let sk := sk_group group_id in
  let* response := get_item pk sk in
  match response with
  | Some item => let* group := lift (parse_group item) in ret (Some group)
  | None => ret None
  end.

Definition add_image_to_group_record (image_id group_id tenant : string)
    : M F (option (ProductGroup F)) :=
  let* safe_tenant := lift (sanitize_tenant tenant) in
  let pk := pk_product_group safe_tenant in
  let sk := sk_group group_id in
  try_except
    (let* attributes :=
       update_item_append pk sk "imageIds" image_id (strftime_now env) in
     let* group := lift (parse_group attributes) in
     ret (Some group))
    (λ e,
      match e with
      | ConditionalCheckFailedException =>
          get_product_group_by_id group_id safe_tenant
      | _ => raise e
      end).

Definition get_product_groups (tenant : string) (limit : nat)
    : M F (list (ProductGroup F)) :=
  let* safe_tenant := lift (sanitize_tenant tenant) in
  let pk := pk_product_group safe_tenant in
  let* items := query pk false in
  for_each (take limit items)
    (λ item groups, let* group := lift (parse_group item) in ret (groups ++ [group])) [].

(** ** Matching and assignment orchestrator *)

Definition process_image_for_grouping (image_id : string)
    (image_buffer : list Byte.byte) (tenant : string) (metadata : option Metadata)
    : M F (GroupingResult F) :=
  let* safe_tenant := lift (sanitize_tenant tenant) in
  let* embedding := generate_image_embedding image_buffer in
  let* _ := store_embedding image_id embedding safe_tenant metadata in
  let* similar_images := find_similar_images embedding safe_tenant (Some image_id) in
  let best_match := head similar_images in
  let* assigned :=
    match best_match with
    | Some best =>
        if bool_decide (matchType best = SAME_PRODUCT) && truthy_str (sm_groupId best)
        then
          let group_id := default "" (sm_groupId best) in
          let* group :=
            try_except
              (let* _ := link_image_to_group image_id group_id safe_tenant in
               add_image_to_group_record image_id group_id safe_tenant)
              (λ _, ret None) in
          ret (group, false)
        else if bool_decide (matchType best = SAME_PRODUCT)
                || bool_decide (matchType best = LIKELY_SAME)
        then
          let group_image_ids := [image_id; sm_imageId best] in
          let* group := create_product_group group_image_ids safe_tenant None None in
          ret (Some group, true)
        else ret (None, false)
    | None => ret (None, false)
    end in
  ret {| gr_embedding := embedding;
         similarImages := similar_images;
         assignedGroup := assigned.1;
         isNewGroup := assigned.2 |}.

End Engine.

(** ** Batch pipeline *)

(** An element of [images]: a dict with the keys [id], [buffer],
    [metadata], [width] and [height]. *)
Record BatchImage := {
  img_id : string;
  img_buffer : list Byte.byte;
  img_metadata : option Metadata;
  img_width : option Z;
  img_height : option Z
}.

(** What the batch pipeline returns. *)
Record BatchSummary {F : Type} := {
  groups : list (ProductGroup F);
  ungrouped : list string;
  processed : nat;
  existingMatched : nat;
  multiSignalEnabled : bool
}.
Arguments BatchSummary F : clear implicits.

(** The variables of the group-creation loop. *)
Record BatchAcc {F : Type} := {
  created_groups : list (ProductGroup F);
  ungrouped_ids : list string;
  existing_matched : nat
}.
Arguments BatchAcc F : clear implicits.

(** The variables of the confidence loops. *)
Record ScoreSum {F : Type} := {
  total_score : F;
  signal_sum : SignalBreakdown F;
  comparisons : nat
}.
Arguments ScoreSum F : clear implicits.

(** [d[k] = v] on a dict, which keeps its keys in insertion order. *)
Fixpoint dict_set {V} (k : string) (v : V) (d : list (string * V)) : list (string * V) :=
  match d with
  | [] => [(k, v)]
  | (k', v') :: rest =>
      if bool_decide (k' = k) then (k, v) :: rest
      else (k', v') :: dict_set k v rest
  end.

(** The pairs [(l[i], l[j])] for [i < j], in the order of the two nested
    [range] loops. *)
Fixpoint index_pairs {A} (l : list A) : list (A * A) :=
  match l with
  | [] => []
  | x :: rest => ((λ y, (x, y)) <$> rest) ++ index_pairs rest
  end.

Section Batch.
Context {F : Type} `{!PyFloat F} (env : Env F).

(** [_batch_extract_features]: the module's stand-in labels every image. *)
Definition _batch_extract_features (images : list BatchImage) (region : string)
    (settings : MultiSignalSettings F) : list (ImageFeatures F) :=
  (λ img, ImageFeatures_new (img_id img) ["simulated_label"]) <$> images.

(** [_generate_batch_image_embeddings]: the module's stand-in rejects the
    images over the size limit and gives every other one the embedding
    [[0.1] * 1024]. *)
Definition embed_one (acc : list (string * list F) * list (string * string))
    (img_input : ImageInput) : list (string * list F) * list (string * string) :=
  if (MAX_IMAGE_SIZE <? len (ii_buffer img_input))%N
  then (acc.1, acc.2 ++ [(ii_imageId img_input, "Image too large")])
  else (dict_set (ii_imageId img_input) (repeat (dec 1 10) 1024) acc.1, acc.2).

Definition _generate_batch_image_embeddings (image_inputs : list ImageInput)
    : BatchEmbeddingResult F :=
  let result := foldl embed_one ([], []) image_inputs in
  {| successCount := length result.1;
     failureCount := length result.2;
     totalTimeMs := 1000;
     embeddings := result.1;
     errors := result.2 |}.

(** The settings the pipeline runs with. *)
Definition batch_settings : MultiSignalSettings F :=
  {| enabled := true;
     weights := [("spatial", dec 2 10); ("feature", dec 2 10); ("semantic", dec 2 10);
                 ("composition", dec 2 10); ("background", dec 2 10)];
     thresholds := {| sameProduct := SIMILARITY_THRESHOLDS SAME_PRODUCT;
                      likelySame := dec 85 100;
                      possiblySame := dec 75 100 |};
     rekognition := [("enabled", PyBool true)];
     titanEmbeddings := [("enabled", PyBool true);
                         ("modelId", PyStr "amazon.titan-embed-image-v1")] |}.

(** [{features.id: features for features in image_features}] *)
Definition metadata_map (image_features : list (ImageFeatures F))
    : gmap string (ImageFeatures F) :=
  foldl (λ m features, <[if_id features := features]> m) ∅ image_features.

(** Step 3, the loop over [batch_result.embeddings.items()]: every embedded
    image joins [new_embeddings_raw] and is stored; a failure to store is
    logged and ignored. *)
Definition keep_embedding (images : list BatchImage) (safe_tenant : string)
    (entry : string * list F) (new_embeddings_raw : list (ProductEmbedding F))
    : M F (list (ProductEmbedding F)) :=
  let image_id := entry.1 in
  let original_image_metadata :=
    match filter (λ img, img_id img = image_id) images with
    | img :: _ => img_metadata img
    | [] => None
    end in
  let new_embeddings_raw :=
    new_embeddings_raw
    ++ [{| pe_imageId := image_id; pe_embedding := entry.2;
           pe_productGroupId := None; pe_metadata := original_image_metadata |}] in
  let* _ := try_except
              (store_embedding env image_id entry.2 safe_tenant original_image_metadata)
              (λ _, ret ()) in
  ret new_embeddings_raw.

(** Step 4: the new embeddings, followed by the stored ones of other images. *)
Definition gather_embeddings (safe_tenant : string) (include_existing_embeddings : bool)
    (new_embeddings_raw : list (ProductEmbedding F)) : M F (list (ProductEmbedding F)) :=
  if include_existing_embeddings
  then
    let* existing_embeddings := get_embeddings safe_tenant 10000%N in
    let new_image_ids : gset string := list_to_set (pe_imageId <$> new_embeddings_raw) in
    ret (new_embeddings_raw
         ++ filter (λ existing, pe_imageId existing ∉ new_image_ids) existing_embeddings)
  else ret new_embeddings_raw.

(** One round of the confidence loops, for the pair [(ids[i], ids[j])]. *)
Definition add_comparison (settings : MultiSignalSettings F)
    (image_metadata_map : gmap string (ImageFeatures F))
    (acc : ScoreSum F) (pair : string * string) : ScoreSum F :=
  match image_metadata_map !! pair.1, image_metadata_map !! pair.2 with
  | Some img1_meta, Some img2_meta =>
      let result := _calculate_multi_signal_similarity img1_meta img2_meta settings in
      let sums := signal_sum acc in
      let signals := signalBreakdown result in
      {| total_score := total_score acc +~ totalScore result;
         signal_sum :=
           {| spatial := spatial sums +~ spatial signals;
              feature := feature sums +~ feature signals;
              semantic := semantic sums +~ semantic signals;
              composition := composition sums +~ composition signals;
              background := background sums +~ background signals |};
         comparisons := S (comparisons acc) |}
  | _, _ => acc
  end.

Definition compare_members (settings : MultiSignalSettings F)
    (image_metadata_map : gmap string (ImageFeatures F))
    (group_image_ids : list string) : ScoreSum F :=
  foldl (add_comparison settings image_metadata_map)
    {| total_score := of_int 0; signal_sum := SignalBreakdown_default; comparisons := 0 |}
    (index_pairs group_image_ids).

(** Step 6, the body of [for group_image_ids in groups].  When members were
    compared, the source builds the reported group by calling [ProductGroup]
    with the unpacked [product_group.model_dump()] and [confidence=...]: the
    call gets [confidence] twice, which Python rejects with a [TypeError]. *)
Definition materialize_cluster (settings : MultiSignalSettings F)
    (image_metadata_map : gmap string (ImageFeatures F)) (safe_tenant : string)
    (new_image_ids_set : gset string)
    (group_image_ids : list string) (acc : BatchAcc F) : M F (BatchAcc F) :=
  let has_new_images :=
    bool_decide (Exists (λ img_id, img_id ∈ new_image_ids_set) group_image_ids) in
  if negb has_new_images then ret acc
  else if (1 <? length group_image_ids)%nat
  then
    let existing_in_group :=
      filter (λ img_id, img_id ∉ new_image_ids_set) group_image_ids in
    let existing_matched := (existing_matched acc + length existing_in_group)%nat in
    let product_group_name :=
      "Group of " +:+ pretty (length group_image_ids) +:+ " images" in
    let product_group_category := "General" in
    let* product_group :=
      create_product_group env group_image_ids safe_tenant
        (Some product_group_name) (Some product_group_category) in
    let appended :=
      {| created_groups := created_groups acc ++ [product_group];
         ungrouped_ids := ungrouped_ids acc;
         existing_matched := existing_matched |} in
    if enabled settings && (1 <? length group_image_ids)%nat
    then
      let sums := compare_members settings image_metadata_map group_image_ids in
      if (0 <? comparisons sums)%nat then raise TypeError
      else ret appended
    else ret appended
  else
    match group_image_ids with
    | first :: _ =>
        ret {| created_groups := created_groups acc;
               ungrouped_ids := ungrouped_ids acc ++ [first];
               existing_matched := existing_matched acc |}
    | [] => raise IndexError
    end.

Definition batch_process_with_multi_signal (images : list BatchImage)
    (tenant : string) (stage : string) (include_existing_embeddings : bool)
    : M F (BatchSummary F) :=
  let* safe_tenant := lift (sanitize_tenant tenant) in
  let settings := batch_settings in
  let image_features := _batch_extract_features images safe_tenant settings in
  let image_metadata_map := metadata_map image_features in
  let image_inputs :=
    (λ img, {| ii_imageId := img_id img; ii_buffer := img_buffer img |}) <$> images in
  let batch_result := _generate_batch_image_embeddings image_inputs in
  let* new_embeddings_raw :=
    for_each (embeddings batch_result) (keep_embedding images safe_tenant) [] in
  let ungrouped := (errors batch_result).*1 in
  let* all_embeddings :=
    gather_embeddings safe_tenant include_existing_embeddings new_embeddings_raw in
  let threshold := sameProduct (thresholds settings) in
  let* groups :=
    lift (cluster_by_similarity all_embeddings threshold (enabled settings)
            (Some image_metadata_map) (Some settings)) in
  let new_image_ids_set : gset string := list_to_set (pe_imageId <$> new_embeddings_raw) in
  let* acc :=
    for_each groups
      (materialize_cluster settings image_metadata_map safe_tenant new_image_ids_set)
      {| created_groups := []; ungrouped_ids := ungrouped; existing_matched := 0 |} in
  ret {| groups := created_groups acc;
         ungrouped := ungrouped_ids acc;
         processed := length new_embeddings_raw;
         existingMatched := existing_matched acc;
         multiSignalEnabled := enabled settings |}.

End Batch.

(** ** Product groups: invariant and concurrent appends *)


(** The group [g] after [image_id] was appended at time [now]. *)
Definition appended {F} (g : ProductGroup F) (image_id now : string) : ProductGroup F :=
  {| groupId := groupId g; primaryImageId := primaryImageId g;
     imageIds := imageIds g ++ [image_id];
     productName := productName g; category := category g;
     confidence := confidence g; createdAt := createdAt g;
     updatedAt := now; pg_tenant := pg_tenant g |}.

(** A call of [add_image_to_group_record] sends at most two requests, each
    of them atomic in the store: the conditional update and, when the store
    rejects it, the read of the group.  Between the two the call is
    suspended, and other callers may run. *)
Inductive AddCall {F : Type} :=
| AddStart                                  (* nothing sent yet *)
| AddRejected (safe_tenant : string)        (* update rejected, group not yet read *)
| AddReturned (r : Result (option (ProductGroup F))).
Arguments AddCall F : clear implicits.

Section Concurrency.
Context {F : Type} `{!PyFloat F} (env : Env F).

(** The next request of a call, and what the call does with the answer. *)
Definition add_call_step (image_id group_id tenant : string)
    (c : AddCall F) (w : World F) : AddCall F * World F :=
  match c with
  | AddStart =>
      match sanitize_tenant tenant with
      | Err e => (AddReturned (Err e), w)
      | Ok safe_tenant =>
          match update_item_append (pk_product_group safe_tenant) (sk_group group_id)
                  "imageIds" image_id (strftime_now env) w with
          | (Ok attributes, w') =>
              (AddReturned
                 match parse_group attributes with
                 | Ok group => Ok (Some group)
                 | Err e => Err e
                 end, w')
          | (Err ConditionalCheckFailedException, w') => (AddRejected safe_tenant, w')
          | (Err e, w') => (AddReturned (Err e), w')
          end
      end
  | AddRejected safe_tenant =>
      let r := get_product_group_by_id group_id safe_tenant w in
      (AddReturned r.1, r.2)
  | AddReturned r => (AddReturned r, w)
  end.

(** Two callers with the same arguments under a schedule that says whose
    turn it is: [true] for the first caller, [false] for the second. *)
Fixpoint run_schedule (image_id group_id tenant : string) (schedule : list bool)
    (c1 c2 : AddCall F) (w : World F) : AddCall F * AddCall F * World F :=
  match schedule with
  | [] => (c1, c2, w)
  | true :: rest =>
      let r := add_call_step image_id group_id tenant c1 w in
      run_schedule image_id group_id tenant rest r.1 c2 r.2
  | false :: rest =>
      let r := add_call_step image_id group_id tenant c2 w in
      run_schedule image_id group_id tenant rest c1 r.1 r.2
  end.

End Concurrency.

(** The group [group_id] of the tenant is stored with the members [l]. *)
Definition group_at {F} `{!PyFloat F} (w : World F) (safe_tenant group_id : string)
    (l : list string) : Prop :=
  ∃ item g,
    table w !! (pk_product_group safe_tenant, sk_group group_id) = Some item
    ∧ parse_group item = Ok g ∧ imageIds g = l.

(** Where a call stands once the group has the members [l]: a call past its
    update has seen [image_id] in the group or has put it there, and a call
    that returned has returned a group. *)
Definition call_settled {F} (image_id safe_tenant : string) (l : list string)
    (c : AddCall F) : Prop :=
  match c with
  | AddStart => True
  | AddRejected s => s = safe_tenant ∧ image_id ∈ l
  | AddReturned r => (∃ g, r = Ok (Some g)) ∧ image_id ∈ l
  end.

(** The requests a call may still send. *)
Definition steps_left {F} (c : AddCall F) : nat :=
  match c with
  | AddStart => 2
  | AddRejected _ => 1
  | AddReturned _ => 0
  end.

(** ** The decision of the orchestrator *)





(** The embedding record of [image_id] points to the group [group_id]. *)
Definition linked {F} (w : World F) (safe_tenant image_id group_id : string) : Prop :=
  ∃ item,
    table w !! (pk_embedding safe_tenant, sk_image image_id) = Some item
    ∧ item !! "productGroupId" = Some (A_S group_id).

(** ** The operations of the engine

    Every operation that takes a tenant, with its other arguments. *)
Inductive EngineOp {F : Type} :=
| OpStoreEmbedding (image_id : string) (embedding : list F) (metadata : option Metadata)
| OpGetEmbeddings (limit : N)
| OpFindSimilarImages (embedding : list F) (exclude_image_id : option string)
| OpCreateProductGroup (image_ids : list string) (product_name category : option string)
| OpLinkImageToGroup (image_id group_id : string)
| OpAddImageToGroupRecord (image_id group_id : string)
| OpGetProductGroupById (group_id : string)
| OpGetProductGroups (limit : nat)
| OpProcessImageForGrouping (image_id : string) (image_buffer : list Byte.byte)
    (metadata : option Metadata)
| OpBatchProcess (images : list BatchImage) (stage : string)
    (include_existing_embeddings : bool).
Arguments EngineOp F : clear implicits.

(** Running an operation for [tenant]: the error it raised, if any, and the
    world it leaves. *)
Definition run_op {F} `{!PyFloat F} (env : Env F) (tenant : string) (op : EngineOp F)
    (w : World F) : option PyError * World F :=
  let outcome {A} (r : Result A * World F) : option PyError * World F :=
    (match r.1 with Ok _ => None | Err e => Some e end, r.2) in
  match op with
  | OpStoreEmbedding image_id embedding metadata =>
      outcome (store_embedding env image_id embedding tenant metadata w)
  | OpGetEmbeddings limit => outcome (get_embeddings tenant limit w)
  | OpFindSimilarImages embedding exclude_image_id =>
      outcome (find_similar_images embedding tenant exclude_image_id w)
  | OpCreateProductGroup image_ids product_name category =>
      outcome (create_product_group env image_ids tenant product_name category w)
  | OpLinkImageToGroup image_id group_id =>
      outcome (link_image_to_group env image_id group_id tenant w)
  | OpAddImageToGroupRecord image_id group_id =>
      outcome (add_image_to_group_record env image_id group_id tenant w)
  | OpGetProductGroupById group_id => outcome (get_product_group_by_id group_id tenant w)
  | OpGetProductGroups limit => outcome (get_product_groups tenant limit w)
  | OpProcessImageForGrouping image_id image_buffer metadata =>
      outcome (process_image_for_grouping env image_id image_buffer tenant metadata w)
  | OpBatchProcess images stage include_existing_embeddings =>
      outcome (batch_process_with_multi_signal env images tenant stage
                 include_existing_embeddings w)
  end.

(** A partition key built from a tenant that holds allowed characters only. *)
Definition sanitized_key (tenant pk : string) : Prop :=
  ∃ safe_tenant,
    sanitize_tenant tenant = Ok safe_tenant
    ∧ Forall (λ c, tenant_char c = true) (list_ascii_of_string safe_tenant)
    ∧ (pk = pk_embedding safe_tenant ∨ pk = pk_product_group safe_tenant).

(** The computation [m] sends requests to the partitions of [safe_tenant]
    only. *)
Definition sends_safe {F A} (safe_tenant : string) (m : M F A) : Prop :=
  ∀ w, ∃ sent,
    requests (m w).2 = requests w ++ sent
    ∧ Forall (λ rq, rq_pk rq = pk_embedding safe_tenant
                    ∨ rq_pk rq = pk_product_group safe_tenant) sent.

(** The computation [m] leaves the item at the key [k] as it is. *)
Definition keeps {F A} (k : string * string) (m : M F A) : Prop :=
  ∀ w, table (m w).2 !! k = table w !! k.

(** The score of a pair under [sim], 0 where [sim] raises. *)
Definition scored {F} `{!PyFloat F}
    (sim : ProductEmbedding F → ProductEmbedding F → Result F)
    (item other : ProductEmbedding F) : F :=
  match sim item other with Ok s => s | Err _ => of_int 0 end.

(** ** The batch, in the words of the design *)

(** The stand-in for the embedding service rejects the image: its buffer is
    over the size limit. *)
Definition oversized (img : BatchImage) : bool :=
  (MAX_IMAGE_SIZE <? len (img_buffer img))%N.

(** The ids of the images of the batch whose embedding failed, in batch
    order, and the ids of those that got an embedding. *)
Definition failed_ids (images : list BatchImage) : list string :=
  img_id <$> filter (λ img, oversized img = true) images.

Definition embedded_ids (images : list BatchImage) : gset string :=
  list_to_set (img_id <$> filter (λ img, oversized img = false) images).

(** The image inputs the pipeline hands to the embedding service. *)
Definition batch_inputs (images : list BatchImage) : list ImageInput :=
  (λ img, {| ii_imageId := img_id img; ii_buffer := img_buffer img |}) <$> images.

(** The cluster holds an image that arrived in this batch. *)
Definition has_new_images (new_image_ids : gset string) (cluster : list string) : Prop :=
  Exists (λ img_id, img_id ∈ new_image_ids) cluster.

#[export] Instance has_new_images_dec new_image_ids cluster :
  Decision (has_new_images new_image_ids cluster).
Proof. unfold has_new_images. apply _. Defined.

(** The key [k] lies outside the two partitions of [safe_tenant]. *)
Definition other_partition (safe_tenant : string) (k : string * string) : Prop :=
  k.1 ≠ pk_embedding safe_tenant ∧ k.1 ≠ pk_product_group safe_tenant.

(** The computation [m] removes no item. *)
Definition retains {F A} (m : M F A) : Prop :=
  ∀ w k, is_Some (table w !! k) → is_Some (table (m w).2 !! k).



(** ** Sample data *)

Definition sample_env : Env PrimFloat.float :=
  {| uuid4 n := "0000-" +:+ pretty n;
     strftime_now := "2024-01-01T00:00:00GMT";
     time_now := of_int 1704067200;
     int_time_now := 1704067200;
     invoke_model buffer :=
       match buffer with
       | Byte.x01 :: _ => Some [of_int 1; of_int 0]
       | Byte.x02 :: _ => Some [of_int 15; of_int 8]
       | Byte.x03 :: _ => Some [of_int 12; of_int 5]
       | Byte.x04 :: _ => Some [of_int 161; of_int 240]
       | _ => None
       end |}.

Definition empty_world : World PrimFloat.float :=
  {| table := ∅; requests := []; uuid_count := 0 |}.

Definition grouped_world : World PrimFloat.float :=
  (create_product_group sample_env ["a"; "b"] "acme" None None empty_world).2.

Definition sample_group : ProductGroup PrimFloat.float :=
  {| groupId := "pg_0000-0"; primaryImageId := "a"; imageIds := ["a"; "b"];
     productName := None; category := None; confidence := of_int 1;
     createdAt := "2024-01-01T00:00:00GMT"; updatedAt := "2024-01-01T00:00:00GMT";
     pg_tenant := "acme" |}.

(** The store after the image [a], and then the image [b], went through the
    orchestrator: [b] matched [a] as LIKELY_SAME and the two were grouped. *)
Definition one_upload_world : World PrimFloat.float :=
  (process_image_for_grouping sample_env "a" [Byte.x01] "acme" None empty_world).2.

Definition two_uploads_world : World PrimFloat.float :=
  (process_image_for_grouping sample_env "b" [Byte.x02] "acme" None one_upload_world).2.

Definition sample_embeddings : list (ProductEmbedding PrimFloat.float) :=
  [ {| pe_imageId := "a"; pe_embedding := [of_int 1; of_int 0];
       pe_productGroupId := None; pe_metadata := None |};
    {| pe_imageId := "b"; pe_embedding := [of_int 15; of_int 8];
       pe_productGroupId := None; pe_metadata := None |};
    {| pe_imageId := "c"; pe_embedding := [of_int 0; of_int 1];
       pe_productGroupId := None; pe_metadata := None |} ].

(** The cosine of two embeddings, 0 where it is not defined. *)
Definition sample_similarity (item other : ProductEmbedding PrimFloat.float)
    : PrimFloat.float :=
  match cosine_similarity (pe_embedding item) (pe_embedding other) with
  | Ok s => s
  | Err _ => of_int 0
  end.

(** A batch image with a one-byte buffer, and one over the size limit. *)
Definition small_image (id : string) : BatchImage :=
  {| img_id := id; img_buffer := [Byte.x01]; img_metadata := None;
     img_width := None; img_height := None |}.



(** The store after a batch of the single image [p], with the embedding of
    an unrelated image [z] stored next to it. *)
Definition batch_world : World PrimFloat.float :=
  (store_embedding sample_env "z" (of_int 1 :: repeat (of_int 0) 1023) "acme" None
     (batch_process_with_multi_signal sample_env [small_image "p"] "acme" "dev" true
        empty_world).2).2.

(** * Properties *)

(** ** Float comparison on binary64 *)

Lemma SFleb_key (x y : SpecFloat.spec_float) (kx ky : Z * Z * Z) :
  sf_key x = Some kx → sf_key y = Some ky →
  (SpecFloat.SFleb x y = true ↔ key_le kx ky) ∧ (SpecFloat.SFltb x y = true ↔ ¬ key_le ky kx).
Proof.
  unfold SpecFloat.SFleb, SpecFloat.SFltb, key_le.
  destruct x as [[]|[]| |[] mx ex], y as [[]|[]| |[] my ey]; cbn;
    intros [= <-] [= <-]; cbn; try (split; split; (done || lia)).
  - destruct (Z.compare_spec ex ey) as [->|?|?]; cbn.
    + change (Pos.compare_cont Eq mx my) with (Pos.compare mx my).
      destruct (Pos.compare_spec mx my) as [->|?|?]; cbn; split; split; (done || lia).
    + split; split; (done || lia).
    + split; split; (done || lia).
  - destruct (Z.compare_spec ex ey) as [->|?|?]; cbn.
    + change (Pos.compare_cont Eq mx my) with (Pos.compare mx my).
      destruct (Pos.compare_spec mx my) as [->|?|?]; cbn; split; split; (done || lia).
    + split; split; (done || lia).
    + split; split; (done || lia).
Qed.

Lemma SFleb_number (x y : SpecFloat.spec_float) : SpecFloat.SFleb x y = true → is_Some (sf_key x) ∧ is_Some (sf_key y).
Proof. destruct x as [[]|[]| |[] mx ex], y as [[]|[]| |[] my ey]; cbn; try done; intros _; split; eauto. Qed.

#[export] Instance ieee_order : PyFloatOrder PrimFloat.float.
Proof.
  split; cbn [fge flt ieee].
  - intros x y. rewrite !FloatAxioms.leb_spec. intros [_ [k Hk]]%SFleb_number.
    by apply (SFleb_key _ _ k k); [..|unfold key_le; lia].
  - intros x y. rewrite !FloatAxioms.leb_spec. intros [[k Hk] _]%SFleb_number.
    by apply (SFleb_key _ _ k k); [..|unfold key_le; lia].
  - intros x y. rewrite FloatAxioms.ltb_spec, !FloatAxioms.leb_spec.
    intros [[kx Hx] _]%SFleb_number [[ky Hy] _]%SFleb_number.
    destruct (SFleb_key _ _ kx ky Hx Hy) as [_ Hlt].
    destruct (SFleb_key _ _ ky kx Hy Hx) as [Hle _].
    destruct (SpecFloat.SFleb (FloatOps.Prim2SF y) (FloatOps.Prim2SF x)) eqn:E; cbn.
    + apply not_true_is_false. rewrite Hlt. intros Hn. apply Hn. by apply Hle.
    + apply Hlt. intros Hk. apply Hle in Hk. congruence.
  - intros x y. rewrite !FloatAxioms.leb_spec.
    intros [[kx Hx] _]%SFleb_number [[ky Hy] _]%SFleb_number Hf.
    apply (SFleb_key _ _ kx ky Hx Hy).
    assert (¬ key_le ky kx) as Hn.
    { intros Hk. apply (SFleb_key _ _ ky kx Hy Hx) in Hk. congruence. }
    unfold key_le in *. lia.
  - intros x y z. rewrite !FloatAxioms.leb_spec. intros Hyx Hzy.
    destruct (SFleb_number _ _ Hyx) as [[ky Hy] [kx Hx]].
    destruct (SFleb_number _ _ Hzy) as [[kz Hz] _].
    apply (SFleb_key _ _ kz kx Hz Hx).
    apply (SFleb_key _ _ ky kx Hy Hx) in Hyx. apply (SFleb_key _ _ kz ky Hz Hy) in Hzy.
    unfold key_le in *. lia.
  - split; vm_compute; reflexivity.
  - vm_compute; reflexivity.
Qed.

(** ** Classification of scores *)

Section OrderedSimilarity.
Context {F : Type} `{!PyFloat F} `{!PyFloatOrder F}.
Implicit Types (s t x y : F).

Lemma thresholds_numbers :
  (dec 92 100 >=~ dec 92 100) = true ∧ (dec 85 100 >=~ dec 85 100) = true
  ∧ (dec 75 100 >=~ dec 75 100) = true.
Proof.
  destruct thresholds_descend as [H1 H2]. repeat split.
  - by eapply fge_number_l.
  - by eapply fge_number_r.
  - by eapply fge_number_r.
Qed.

Lemma flt_iff_not_fge x y :
  (x >=~ x) = true → (y >=~ y) = true → (x <~ y) = true ↔ (x >=~ y) = false.
Proof. intros Hx Hy. rewrite flt_not_fge by done. by destruct (x >=~ y). Qed.

(** The four cases of [classify_similarity] on a number. *)
Lemma classify_similarity_cases s :
  (s >=~ s) = true →
  ((s >=~ dec 92 100) = true ∧ classify_similarity s = SAME_PRODUCT)
  ∨ ((s >=~ dec 92 100) = false ∧ (s >=~ dec 85 100) = true
     ∧ classify_similarity s = LIKELY_SAME)
  ∨ ((s >=~ dec 92 100) = false ∧ (s >=~ dec 85 100) = false
     ∧ (s >=~ dec 75 100) = true ∧ classify_similarity s = POSSIBLY_SAME)
  ∨ ((s >=~ dec 92 100) = false ∧ (s >=~ dec 85 100) = false
     ∧ (s >=~ dec 75 100) = false ∧ classify_similarity s = DIFFERENT).
Proof.
  intros Hs. unfold classify_similarity, SIMILARITY_THRESHOLDS.
  destruct (s >=~ dec 92 100); [by left|].
  destruct (s >=~ dec 85 100); [by right; left|].
  destruct (s >=~ dec 75 100); [by right; right; left|].
  by right; right; right.
Qed.

Lemma fge_threshold_down s :
  ((s >=~ dec 92 100) = true → (s >=~ dec 85 100) = true)
  ∧ ((s >=~ dec 85 100) = true → (s >=~ dec 75 100) = true).
Proof.
  destruct thresholds_descend as [H1 H2].
  split; intros Hs; eapply fge_trans; eauto.
Qed.

(** C3.  On every number [s] (every float but NaN, every real),
    [classify_similarity] gives SAME_PRODUCT iff [s >= 0.92], LIKELY_SAME iff
    [0.85 <= s < 0.92], POSSIBLY_SAME iff [0.75 <= s < 0.85] and DIFFERENT
    iff [s < 0.75]; the bands are ordered: a larger score never gets a
    weaker band. *)
Theorem classify_similarity_bands s :
  (s >=~ s) = true →
  (classify_similarity s = SAME_PRODUCT ↔ (s >=~ dec 92 100) = true)
  ∧ (classify_similarity s = LIKELY_SAME
     ↔ (s >=~ dec 85 100) = true ∧ (s <~ dec 92 100) = true)
  ∧ (classify_similarity s = POSSIBLY_SAME
     ↔ (s >=~ dec 75 100) = true ∧ (s <~ dec 85 100) = true)
  ∧ (classify_similarity s = DIFFERENT ↔ (s <~ dec 75 100) = true)
  ∧ (∀ t, (t >=~ s) = true →
       (band_rank (classify_similarity s) ≤ band_rank (classify_similarity t))%nat).
Proof.
  intros Hs. destruct thresholds_numbers as (Ha & Hb & Hc).
  rewrite !flt_iff_not_fge by done.
  assert (Hcl : ∀ x, (x >=~ x) = true →
    classify_similarity x
    = if x >=~ dec 92 100 then SAME_PRODUCT
      else if x >=~ dec 85 100 then LIKELY_SAME
      else if x >=~ dec 75 100 then POSSIBLY_SAME else DIFFERENT) by done.
  split; [|split; [|split; [|split]]].
  1-4: rewrite (Hcl s Hs); destruct (fge_threshold_down s) as [Hab Hbc];
       destruct (s >=~ dec 92 100), (s >=~ dec 85 100), (s >=~ dec 75 100);
       naive_solver.
  intros t Hts. pose proof (fge_number_l _ _ Hts) as Ht.
  assert (Hup : ∀ k, (s >=~ k) = true → (t >=~ k) = true).
  { intros k Hk. eapply fge_trans; [exact Hts|exact Hk]. }
  rewrite (Hcl s Hs), (Hcl t Ht).
  destruct (fge_threshold_down s) as [Hab Hbc].
  destruct (fge_threshold_down t) as [Htab Htbc].
  pose proof (Hup (dec 92 100)) as Hup1. pose proof (Hup (dec 85 100)) as Hup2.
  pose proof (Hup (dec 75 100)) as Hup3.
  destruct (s >=~ dec 92 100), (s >=~ dec 85 100), (s >=~ dec 75 100),
    (t >=~ dec 92 100), (t >=~ dec 85 100), (t >=~ dec 75 100);
    cbn; try lia; naive_solver.
Qed.

End OrderedSimilarity.

Lemma classify_similarity_bands_witness :
  let s : PrimFloat.float := dec 9 10 in
  (classify_similarity s = SAME_PRODUCT ↔ (s >=~ dec 92 100) = true)
  ∧ (classify_similarity s = LIKELY_SAME
     ↔ (s >=~ dec 85 100) = true ∧ (s <~ dec 92 100) = true)
  ∧ (classify_similarity s = POSSIBLY_SAME
     ↔ (s >=~ dec 75 100) = true ∧ (s <~ dec 85 100) = true)
  ∧ (classify_similarity s = DIFFERENT ↔ (s <~ dec 75 100) = true)
  ∧ (∀ t, (t >=~ s) = true →
       (band_rank (classify_similarity s) ≤ band_rank (classify_similarity t))%nat).
Proof. apply (classify_similarity_bands (dec 9 10)). vm_compute. reflexivity. Defined.

(** ** Tenant sanitization *)

Lemma strip_disallowed_chars (s : string) :
  Forall (λ c, tenant_char c = true) (list_ascii_of_string (strip_disallowed s)).
Proof.
  induction s as [|c s IH]; simpl; [constructor|].
  destruct (tenant_char c) eqn:Hc; simpl; [constructor|]; done.
Qed.

Lemma strip_disallowed_filter (s : string) :
  list_ascii_of_string (strip_disallowed s)
  = List.filter tenant_char (list_ascii_of_string s).
Proof.
  induction s as [|c s IH]; simpl; [done|].
  destruct (tenant_char c); simpl; by rewrite IH.
Qed.

Lemma strip_disallowed_idemp (s : string) :
  strip_disallowed (strip_disallowed s) = strip_disallowed s.
Proof.
  induction s as [|c s IH]; simpl; [done|].
  destruct (tenant_char c) eqn:Hc; simpl; [|done].
  by rewrite Hc, IH.
Qed.

Lemma sanitize_tenant_Ok (tenant safe : string) :
  sanitize_tenant tenant = Ok safe ↔ strip_disallowed tenant = safe ∧ safe ≠ "".
Proof.
  unfold sanitize_tenant. case_bool_decide as Hs; split.
  - discriminate.
  - intros [<- ?]. done.
  - intros [= <-]. done.
  - intros [<- _]. done.
Qed.

Lemma sanitize_tenant_Err (tenant : string) (e : PyError) :
  sanitize_tenant tenant = Err e ↔ strip_disallowed tenant = "" ∧ e = InvalidTenantError.
Proof.
  unfold sanitize_tenant. case_bool_decide as Hs; split.
  - by intros [= <-].
  - by intros [_ ->].
  - discriminate.
  - intros [? _]. done.
Qed.

Lemma sanitize_tenant_idemp (tenant safe : string) :
  sanitize_tenant tenant = Ok safe → sanitize_tenant safe = Ok safe.
Proof.
  rewrite !sanitize_tenant_Ok. intros [<- Hne].
  by rewrite strip_disallowed_idemp.
Qed.

(** ** Similarity engine, in exact arithmetic *)

Section ExactSimilarity.
Local Open Scope R_scope.

Lemma exact_fge (x y : R) : (x >=~ y) = true ↔ x >= y.
Proof. simpl. destruct (Rge_dec x y); split; (done || lra). Qed.

Lemma exact_fge_false (x y : R) : (x >=~ y) = false ↔ x < y.
Proof. simpl. destruct (Rge_dec x y); split; (done || lra). Qed.

Lemma exact_thresholds :
  SIMILARITY_THRESHOLDS SAME_PRODUCT = 0.92
  ∧ SIMILARITY_THRESHOLDS LIKELY_SAME = 0.85
  ∧ SIMILARITY_THRESHOLDS POSSIBLY_SAME = 0.75
  ∧ SIMILARITY_THRESHOLDS DIFFERENT = 0.
Proof. unfold SIMILARITY_THRESHOLDS, dec; simpl. repeat split; lra. Qed.

(** The bands on the reals, with the thresholds written out. *)
Lemma classify_similarity_bands_exact (s : R) :
  (classify_similarity s = SAME_PRODUCT ↔ s >= 0.92)
  ∧ (classify_similarity s = LIKELY_SAME ↔ 0.85 <= s < 0.92)
  ∧ (classify_similarity s = POSSIBLY_SAME ↔ 0.75 <= s < 0.85)
  ∧ (classify_similarity s = DIFFERENT ↔ s < 0.75)
  ∧ (∀ t : R, s <= t →
        (band_rank (classify_similarity s) ≤ band_rank (classify_similarity t))%nat).
Proof.
  destruct exact_thresholds as (H1 & H2 & H3 & _).
  assert (Hcl : ∀ x : R,
    (x >= 0.92 ∧ classify_similarity x = SAME_PRODUCT)
    ∨ (0.85 <= x < 0.92 ∧ classify_similarity x = LIKELY_SAME)
    ∨ (0.75 <= x < 0.85 ∧ classify_similarity x = POSSIBLY_SAME)
    ∨ (x < 0.75 ∧ classify_similarity x = DIFFERENT)).
  { intros x. unfold classify_similarity. rewrite H1, H2, H3.
    destruct (x >=~ 0.92) eqn:E1;
      [apply exact_fge in E1; left; split; [lra|done] | apply exact_fge_false in E1].
    destruct (x >=~ 0.85) eqn:E2;
      [apply exact_fge in E2; right; left; split; [lra|done] | apply exact_fge_false in E2].
    destruct (x >=~ 0.75) eqn:E3;
      [apply exact_fge in E3; right; right; left; split; [lra|done]
      | apply exact_fge_false in E3].
    right; right; right; split; [lra|done]. }
  repeat split.
  - intros Hs. destruct (Hcl s) as [[? ?]|[[? ?]|[[? ?]|[? ?]]]]; congruence || lra.
  - intros Hs. destruct (Hcl s) as [[? ?]|[[? ?]|[[? ?]|[? ?]]]]; congruence || lra.
  - destruct (Hcl s) as [[? ?]|[[? ?]|[[? ?]|[? ?]]]]; congruence || lra.
  - destruct (Hcl s) as [[? ?]|[[? ?]|[[? ?]|[? ?]]]]; congruence || lra.
  - intros [? ?]. destruct (Hcl s) as [[? ?]|[[? ?]|[[? ?]|[? ?]]]]; congruence || lra.
  - destruct (Hcl s) as [[? ?]|[[? ?]|[[? ?]|[? ?]]]]; congruence || lra.
  - destruct (Hcl s) as [[? ?]|[[? ?]|[[? ?]|[? ?]]]]; congruence || lra.
  - intros [? ?]. destruct (Hcl s) as [[? ?]|[[? ?]|[[? ?]|[? ?]]]]; congruence || lra.
  - destruct (Hcl s) as [[? ?]|[[? ?]|[[? ?]|[? ?]]]]; congruence || lra.
  - intros ?. destruct (Hcl s) as [[? ?]|[[? ?]|[[? ?]|[? ?]]]]; congruence || lra.
  - intros t Hst.
    destruct (Hcl s) as [[? ->]|[[? ->]|[[? ->]|[? ->]]]];
      destruct (Hcl t) as [[? ->]|[[? ->]|[[? ->]|[? ->]]]]; simpl; lia || lra.
Qed.

(** Sums of squares. *)
Lemma fold_left_Rplus (xs : list R) (acc : R) :
  fold_left Rplus xs acc = acc + fold_left Rplus xs 0.
Proof.
  revert acc. induction xs as [|x xs IH]; intros acc; simpl; [lra|].
  rewrite (IH (acc + x)), (IH (0 + x)). lra.
Qed.

Lemma py_sum_cons (x : R) (xs : list R) : py_sum (x :: xs) = x + py_sum xs.
Proof. unfold py_sum; simpl. rewrite fold_left_Rplus. lra. Qed.

Lemma sum_squares_nonneg (a : list R) : 0 <= py_sum (map (λ x, x *~ x) a).
Proof.
  induction a as [|x a IH]; [unfold py_sum; simpl; lra|].
  rewrite map_cons, py_sum_cons. simpl in *; nra.
Qed.


Lemma norm_square (a : list R) : norm a * norm a = py_sum (map (λ x, x *~ x) a).
Proof. unfold norm; simpl. apply sqrt_sqrt, sum_squares_nonneg. Qed.

(** The norm is zero exactly on the zero vector. *)
Lemma norm_zero_iff (a : list R) : norm a = 0 ↔ Forall (λ x, x = 0) a.
Proof.
  split.
  - intros Hn. pose proof (norm_square a) as Hsq. rewrite Hn in Hsq.
    clear Hn. induction a as [|x a IH]; [constructor|].
    rewrite map_cons, py_sum_cons in Hsq. simpl in Hsq.
    pose proof (sum_squares_nonneg a) as Hge. simpl in Hge.
    assert (x * x = 0 ∧ py_sum (map (λ y, y * y) a) = 0) as [Hx Ha] by nra.
    constructor; [nra|]. apply IH. simpl. lra.
  - intros Hall. unfold norm.
    assert (py_sum (map (λ x, x *~ x) a) = 0) as ->; [|apply sqrt_0].
    induction Hall as [|x a -> _ IH]; [done|].
    rewrite map_cons, py_sum_cons, IH. simpl. lra.
Qed.

Lemma is_nil_false {A} (l : list A) : l ≠ [] → is_nil l = false.
Proof. by destruct l. Qed.

(** What [cosine_similarity] computes once both guards are passed. *)
Lemma cosine_similarity_value (a b : list R) :
  a ≠ [] → length a = length b →
  cosine_similarity a b
  = Ok (if Req_dec_T (norm a * norm b) 0 then 0 else dot a b / (norm a * norm b)).
Proof.
  intros Ha Hlen. assert (b ≠ []) as Hb by (destruct a, b; done).
  unfold cosine_similarity.
  rewrite (is_nil_false a Ha), (is_nil_false b Hb), Hlen, Nat.eqb_refl.
  cbn [orb negb]. f_equal. change (norm a *~ norm b !=~ of_int 0)
    with (if Req_dec_T (norm a * norm b) 0 then false else true).
  by destruct (Req_dec_T (norm a * norm b) 0).
Qed.



(** The degenerate case the guard of [cosine_similarity] is there for. *)
Lemma cosine_similarity_self_zero : cosine_similarity [0] [0] = Ok 0.
Proof.
  rewrite cosine_similarity_value by done.
  destruct (Req_dec_T _ _) as [_|Hnz]; [done|].
  exfalso. apply Hnz.
  assert (norm [0] = 0) as -> by (apply norm_zero_iff; by repeat constructor).
  lra.
Qed.

End ExactSimilarity.


(** ** Clustering engine *)

Section ClusteringProperties.
Context {F : Type} `{!PyFloat F}.
Implicit Types (item other o : ProductEmbedding F) (assigned : gset string).

Lemma filter_ext_elem {A} (P Q : A → Prop)
    `{!∀ x, Decision (P x), !∀ x, Decision (Q x)} (l : list A) :
  (∀ x, x ∈ l → P x ↔ Q x) → filter P l = filter Q l.
Proof.
  induction l as [|a l IH]; intros Hext; [done|].
  rewrite !filter_cons.
  rewrite IH by (intros x Hx; apply Hext; by right).
  apply decide_ext, Hext. by left.
Qed.

Lemma cluster_scan_total sim threshold item (others : list (ProductEmbedding F))
    (cluster : list string) assigned :
  NoDup (pe_imageId <$> others) →
  cluster_scan (λ a b, Ok (sim a b)) threshold item others cluster assigned
  = Ok (cluster ++ (pe_imageId <$> filter (joins sim threshold item assigned) others),
        list_to_set (pe_imageId <$> filter (joins sim threshold item assigned) others)
          ∪ assigned).
Proof.
  revert cluster assigned.
  induction others as [|other rest IH]; intros cluster assigned Hnd.
  - simpl. rewrite app_nil_r. f_equal. f_equal. set_solver.
  - rewrite fmap_cons in Hnd. apply NoDup_cons in Hnd as [Hfresh Hnd].
    cbn [cluster_scan]. case_bool_decide as Hin.
    + rewrite filter_cons_False by (unfold joins; tauto). by apply IH.
    + destruct (sim item other >=~ threshold) eqn:Hsim.
      * rewrite filter_cons_True by done. rewrite IH by done.
        assert (filter (joins sim threshold item ({[pe_imageId other]} ∪ assigned)) rest
                = filter (joins sim threshold item assigned) rest) as ->.
        { apply filter_ext_elem. intros o Ho. unfold joins.
          assert (pe_imageId o ≠ pe_imageId other).
          { intros Heq. apply Hfresh. rewrite <- Heq. by apply list_elem_of_fmap_2. }
          set_solver. }
        rewrite fmap_cons, <- app_assoc. simpl. f_equal. f_equal. set_solver.
      * rewrite filter_cons_False by (unfold joins; rewrite Hsim; intros [_ ?]; done).
        by apply IH.
Qed.

Lemma seed_clusters_cons sim threshold item (rest : list (ProductEmbedding F)) :
  seed_clusters sim threshold (item :: rest)
  = (pe_imageId item
       :: (pe_imageId <$> filter (λ o, (sim item o >=~ threshold) = true) rest))
    :: seed_clusters sim threshold
         (filter (λ o, (sim item o >=~ threshold) ≠ true) rest).
Proof. by simp seed_clusters. Qed.

Lemma cluster_loop_total sim threshold (pre items : list (ProductEmbedding F))
    (clusters : list (list string)) assigned :
  NoDup (pe_imageId <$> (pre ++ items)) →
  (∀ o, o ∈ pre → pe_imageId o ∈ assigned) →
  cluster_loop (λ a b, Ok (sim a b)) threshold (pre ++ items) items clusters assigned
  = Ok (clusters
        ++ seed_clusters sim threshold (filter (λ o, pe_imageId o ∉ assigned) items)).
Proof.
  revert pre clusters assigned.
  induction items as [|item rest IH]; intros pre clusters assigned Hnd Hpre.
  - simpl. rewrite filter_nil. simp seed_clusters. by rewrite app_nil_r.
  - cbn [cluster_loop]. case_bool_decide as Hin.
    + rewrite filter_cons_False by tauto.
      replace (pre ++ item :: rest) with ((pre ++ [item]) ++ rest)
        by (by rewrite <- app_assoc).
      apply IH.
      * by rewrite <- app_assoc.
      * intros o [Ho | ->%list_elem_of_singleton]%elem_of_app; auto.
    + rewrite filter_cons_True by done. rewrite seed_clusters_cons.
      rewrite cluster_scan_total by done.
      assert (Hfresh : ∀ o, o ∈ rest → pe_imageId o ≠ pe_imageId item).
      { intros o Ho Heq. rewrite fmap_app, fmap_cons in Hnd.
        apply NoDup_app in Hnd as (_ & _ & Hnd). apply NoDup_cons in Hnd as [Hni _].
        apply Hni. rewrite <- Heq. by apply list_elem_of_fmap_2. }
      assert (Hinj : ∀ o o', o ∈ rest → o' ∈ rest → pe_imageId o = pe_imageId o' → o = o').
      { rewrite fmap_app, fmap_cons in Hnd.
        apply NoDup_app in Hnd as (_ & _ & Hnd). apply NoDup_cons in Hnd as [_ Hnd].
        intros o o' Ho Ho' Heq.
        apply list_elem_of_lookup in Ho as [i Hi], Ho' as [j Hj].
        assert (i = j) as ->; [|congruence].
        eapply NoDup_lookup; [exact Hnd| |];
          rewrite list_lookup_fmap; [by rewrite Hi | by rewrite Hj, Heq]. }
      (* the scan skips the items before the seed and the seed itself *)
      assert (Hscan : filter (joins sim threshold item ({[pe_imageId item]} ∪ assigned))
                        (pre ++ item :: rest)
                      = filter (λ o, (sim item o >=~ threshold) = true)
                          (filter (λ o, pe_imageId o ∉ assigned) rest)).
      { rewrite filter_app, filter_cons_False by (unfold joins; set_solver).
        assert (filter (joins sim threshold item ({[pe_imageId item]} ∪ assigned)) pre = [])
          as ->.
        { induction pre as [|p pre IHpre]; [done|].
          rewrite filter_cons_False.
          - apply IHpre.
            + rewrite <- app_comm_cons, fmap_cons in Hnd. by apply NoDup_cons in Hnd as [_ ?].
            + intros o Ho. apply Hpre. by right.
          - unfold joins. specialize (Hpre p ltac:(by left)). set_solver. }
        rewrite app_nil_l, list_filter_filter. apply filter_ext_elem.
        intros o Ho. unfold joins. specialize (Hfresh o Ho). set_solver. }
      rewrite Hscan.
      set (joined := filter (λ o, (sim item o >=~ threshold) = true)
                       (filter (λ o, pe_imageId o ∉ assigned) rest)).
      replace (pre ++ item :: rest) with ((pre ++ [item]) ++ rest)
        by (by rewrite <- app_assoc).
      rewrite IH.
      * rewrite <- app_assoc. simpl. do 3 f_equal.
        apply (f_equal (seed_clusters sim threshold)).
        rewrite list_filter_filter. apply filter_ext_elem. intros o Ho.
        specialize (Hfresh o Ho).
        rewrite elem_of_union, elem_of_list_to_set, elem_of_union, elem_of_singleton.
        split.
        -- intros Hno. split.
           ++ intros Hsim. apply Hno. left. apply list_elem_of_fmap_2.
              unfold joined. rewrite !list_elem_of_filter. tauto.
           ++ tauto.
        -- intros [Hsim Hno] [Hj | [? | ?]]; [|done|done].
           apply list_elem_of_fmap in Hj as (o' & Heq & Ho').
           unfold joined in Ho'. rewrite !list_elem_of_filter in Ho'.
           destruct Ho' as (Hs' & _ & Ho').
           assert (o = o') as <- by (by apply Hinj). done.
      * by rewrite <- app_assoc.
      * intros o [Ho | ->%list_elem_of_singleton]%elem_of_app.
        -- specialize (Hpre o Ho). set_solver.
        -- set_solver.
Qed.

Lemma seed_clusters_concat sim threshold (items : list (ProductEmbedding F)) :
  concat (seed_clusters sim threshold items) ≡ₚ pe_imageId <$> items.
Proof.
  funelim (seed_clusters sim threshold items); [done|].
  simp seed_clusters. simpl.
  match goal with IH : concat _ ≡ₚ _ |- _ => rewrite IH end.
  constructor. rewrite <- fmap_app. apply fmap_Permutation.
  apply (filter_app_complement (λ o, (sim seed o >=~ threshold) = true)).
Qed.

Lemma elem_of_concat {A} (x : A) (ls : list (list A)) :
  x ∈ concat ls ↔ ∃ l, x ∈ l ∧ l ∈ ls.
Proof.
  induction ls as [|l' ls IH]; simpl.
  - split; [by intros ?%elem_of_nil | by intros (? & _ & ?%elem_of_nil)].
  - rewrite elem_of_app, IH. split.
    + intros [? | (l & ? & ?)]; [exists l' | exists l]; split; (done || by constructor).
    + intros (l & Hx & [-> | Hl]%elem_of_cons); [by left | right; eauto].
Qed.

Lemma concat_NoDup_unique {A} (ls : list (list A)) (i j : nat) (c c' : list A) (x : A) :
  NoDup (concat ls) → ls !! i = Some c → ls !! j = Some c' → x ∈ c → x ∈ c' → i = j.
Proof.
  revert i j. induction ls as [|l ls IH]; intros i j Hnd Hi Hj Hx Hx'; [done|].
  simpl in Hnd. apply NoDup_app in Hnd as (_ & Hdisj & Hnd).
  assert (Hin : ∀ k d, ls !! k = Some d → x ∈ d → x ∈ concat ls).
  { intros k d Hk Hd. apply elem_of_concat. exists d. split; [done|].
    by eapply list_elem_of_lookup_2. }
  destruct i as [|i], j as [|j]; cbn [lookup list_lookup] in Hi, Hj.
  - done.
  - injection Hi as ->. exfalso. eapply Hdisj; eauto.
  - injection Hj as ->. exfalso. eapply Hdisj; eauto.
  - f_equal. by apply IH.
Qed.

Lemma cluster_with_seed_clusters sim threshold (embeddings : list (ProductEmbedding F)) :
  NoDup (pe_imageId <$> embeddings) →
  cluster_with (λ item other, Ok (sim item other)) threshold embeddings
  = Ok (seed_clusters sim threshold embeddings).
Proof.
  intros Hnd. unfold cluster_with.
  rewrite (cluster_loop_total sim threshold [] embeddings [] ∅) by (done || set_solver).
  simpl. f_equal. f_equal. clear Hnd.
  induction embeddings as [|e l IH]; [done|].
  rewrite filter_cons_True by set_solver. f_equal. apply IH.
Qed.

End ClusteringProperties.

(** C1. For embeddings with pairwise-distinct image ids, any threshold and
    any similarity function, [cluster_by_similarity]'s loop returns the
    clusters of the seed-based design: in input order every item not yet
    assigned seeds a cluster that takes each later unassigned item whose
    similarity to the seed reaches the threshold.  The clusters partition
    the input: together they hold each input id once, so every id lies in
    exactly one cluster. *)
Theorem cluster_partition {F : Type} `{!PyFloat F}
    (sim : ProductEmbedding F → ProductEmbedding F → F) (threshold : F)
    (embeddings : list (ProductEmbedding F)) :
  NoDup (pe_imageId <$> embeddings) →
  let clusters := seed_clusters sim threshold embeddings in
  cluster_with (λ item other, Ok (sim item other)) threshold embeddings = Ok clusters
  ∧ concat clusters ≡ₚ pe_imageId <$> embeddings
  ∧ ∀ id, id ∈ pe_imageId <$> embeddings →
      ∃ i cluster, clusters !! i = Some cluster ∧ id ∈ cluster
        ∧ ∀ j cluster', clusters !! j = Some cluster' → id ∈ cluster' → j = i.
Proof.
  intros Hnd clusters. split; [|split].
  - by apply cluster_with_seed_clusters.
  - apply seed_clusters_concat.
  - intros id Hid.
    pose proof (seed_clusters_concat sim threshold embeddings) as Hperm.
    fold clusters in Hperm.
    assert (NoDup (concat clusters)) as Hndc by (by rewrite Hperm).
    rewrite <- Hperm in Hid. apply elem_of_concat in Hid as (cluster & Hin & Hc).
    apply list_elem_of_lookup in Hc as [i Hi].
    exists i, cluster. repeat split; [done..|].
    intros j cluster' Hj Hin'. by eapply concat_NoDup_unique.
Qed.

Lemma cluster_partition_witness :
  NoDup (pe_imageId <$> sample_embeddings)
  ∧ seed_clusters sample_similarity (dec 85 100) sample_embeddings = [["a"; "b"]; ["c"]]
  ∧ cluster_with (λ item other, Ok (sample_similarity item other)) (dec 85 100)
      sample_embeddings = Ok [["a"; "b"]; ["c"]]
  ∧ concat [["a"; "b"]; ["c"]] ≡ₚ pe_imageId <$> sample_embeddings.
Proof.
  assert (Hnd : NoDup (pe_imageId <$> sample_embeddings))
    by (apply (bool_decide_unpack _); vm_compute; exact I).
  assert (Hc : seed_clusters sample_similarity (dec 85 100) sample_embeddings
               = [["a"; "b"]; ["c"]]) by (vm_compute; reflexivity).
  split; [exact Hnd|]. split; [exact Hc|]. rewrite <- Hc.
  destruct (cluster_partition sample_similarity (dec 85 100) sample_embeddings Hnd)
    as (Hrun & Hperm & _).
  split; [exact Hrun|exact Hperm].
Defined.

(** ** Group lifecycle *)

Section StoreProperties.
Context {F : Type} `{!PyFloat F} (env : Env F).
#[local] Abbreviation Item := (gmap string (Attr F)).
Implicit Types (w : World F) (item : Item) (g : ProductGroup F).

Lemma append_inj_r (s a b : string) : s +:+ a = s +:+ b → a = b.
Proof. induction s as [|c s IH]; simpl; [done|]. intros [= ?]. auto. Qed.



Lemma parse_group_fields (item : Item) (g : ProductGroup F) :
  parse_group item = Ok g →
  item !! "groupId" = Some (A_S (groupId g))
  ∧ item !! "primaryImageId" = Some (A_S (primaryImageId g))
  ∧ item !! "imageIds" = Some (A_L (imageIds g))
  ∧ opt_str_field (item !! "productName") = Ok (productName g)
  ∧ opt_str_field (item !! "category") = Ok (category g)
  ∧ item !! "confidence" = Some (A_N (confidence g))
  ∧ item !! "createdAt" = Some (A_S (createdAt g))
  ∧ item !! "updatedAt" = Some (A_S (updatedAt g))
  ∧ item !! "tenant" = Some (A_S (pg_tenant g)).
Proof.
  unfold parse_group. intros H.
  repeat case_match; try discriminate.
  injection H as <-. simpl. repeat split; congruence.
Qed.

Lemma parse_group_intro (item : Item) (g : ProductGroup F) :
  item !! "groupId" = Some (A_S (groupId g)) →
  item !! "primaryImageId" = Some (A_S (primaryImageId g)) →
  item !! "imageIds" = Some (A_L (imageIds g)) →
  opt_str_field (item !! "productName") = Ok (productName g) →
  opt_str_field (item !! "category") = Ok (category g) →
  item !! "confidence" = Some (A_N (confidence g)) →
  item !! "createdAt" = Some (A_S (createdAt g)) →
  item !! "updatedAt" = Some (A_S (updatedAt g)) →
  item !! "tenant" = Some (A_S (pg_tenant g)) →
  parse_group item = Ok g.
Proof.
  intros H1 H2 H3 H4 H5 H6 H7 H8 H9. unfold parse_group.
  rewrite H1, H2, H3, H4, H5, H6, H7, H8, H9. by destruct g.
Qed.


Lemma bind_Err {A B} (m : M F A) (k : A → M F B) w e w' :
  m w = (Err e, w') → bind m k w = (Err e, w').
Proof. unfold bind. by intros ->. Qed.

Lemma lift_sanitize {B} tenant safe (k : string → M F B) w :
  sanitize_tenant tenant = Ok safe →
  bind (lift (sanitize_tenant tenant)) k w = k safe w.
Proof. intros H. unfold bind, lift. by rewrite H. Qed.

Lemma get_product_group_by_id_found group_id tenant safe w item g :
  sanitize_tenant tenant = Ok safe →
  table w !! (pk_product_group safe, sk_group group_id) = Some item →
  parse_group item = Ok g →
  get_product_group_by_id group_id tenant w
  = (Ok (Some g), log_request GetItem (pk_product_group safe) (Some (sk_group group_id)) w).
Proof.
  intros Hs Hitem Hparse. unfold get_product_group_by_id.
  rewrite (lift_sanitize _ safe) by done. unfold bind, get_item. rewrite Hitem.
  unfold lift. by rewrite Hparse.
Qed.

Lemma update_item_append_present pk sk a x now w item l :
  table w !! (pk, sk) = Some item → item !! a = Some (A_L l) → x ∈ l →
  update_item_append pk sk a x now w
  = (Err ConditionalCheckFailedException, log_request UpdateItem pk (Some sk) w).
Proof.
  intros Hitem Ha Hx. unfold update_item_append.
  rewrite Hitem. cbn [default from_option Datatypes.id]. rewrite Ha. cbn [attr_contains].
  by rewrite bool_decide_eq_true_2.
Qed.

Lemma update_item_append_absent pk sk a x now w item l :
  table w !! (pk, sk) = Some item → item !! a = Some (A_L l) → x ∉ l →
  update_item_append pk sk a x now w
  = (Ok (<["updatedAt" := A_S now]> (<[a := A_L (l ++ [x])]> item)),
     set_table (<[(pk, sk) := <["updatedAt" := A_S now]> (<[a := A_L (l ++ [x])]> item)]> (table w))
       (log_request UpdateItem pk (Some sk) w)).
Proof.
  intros Hitem Ha Hx. unfold update_item_append.
  rewrite Hitem. cbn [default from_option Datatypes.id]. rewrite Ha. cbn [attr_contains].
  by rewrite bool_decide_eq_false_2.
Qed.

Lemma add_image_present image_id group_id tenant safe w item g :
  sanitize_tenant tenant = Ok safe →
  table w !! (pk_product_group safe, sk_group group_id) = Some item →
  parse_group item = Ok g →
  image_id ∈ imageIds g →
  ∃ w', add_image_to_group_record env image_id group_id tenant w = (Ok (Some g), w')
        ∧ table w' = table w.
Proof.
  intros Hs Hitem Hparse Hin.
  pose proof (parse_group_fields _ _ Hparse) as (_ & _ & Hids & _).
  unfold add_image_to_group_record. rewrite (lift_sanitize _ safe) by done.
  unfold try_except, bind at 1.
  erewrite update_item_append_present by done.
  erewrite get_product_group_by_id_found; [|by eapply sanitize_tenant_idemp|..]; [|done|done].
  eexists. split; [done|]. done.
Qed.

Lemma add_image_absent image_id group_id tenant safe w item g :
  sanitize_tenant tenant = Ok safe →
  table w !! (pk_product_group safe, sk_group group_id) = Some item →
  parse_group item = Ok g →
  image_id ∉ imageIds g →
  ∃ w' item',
    add_image_to_group_record env image_id group_id tenant w
    = (Ok (Some (appended g image_id (strftime_now env))), w')
    ∧ table w' = <[(pk_product_group safe, sk_group group_id) := item']> (table w)
    ∧ parse_group item' = Ok (appended g image_id (strftime_now env)).
Proof.
  intros Hs Hitem Hparse Hin.
  pose proof (parse_group_fields _ _ Hparse) as (H1 & H2 & Hids & H4 & H5 & H6 & H7 & H8 & H9).
  unfold add_image_to_group_record. rewrite (lift_sanitize _ safe) by done.
  unfold try_except, bind at 1.
  erewrite update_item_append_absent by done.
  set (item' := <["updatedAt":=_]> (<["imageIds":=_]> item)).
  assert (parse_group item' = Ok (appended g image_id (strftime_now env))) as Hp'.
  { apply parse_group_intro; unfold item', appended; cbn [groupId primaryImageId imageIds productName category confidence createdAt updatedAt pg_tenant];
    rewrite ?lookup_insert_eq, ?lookup_insert_ne by done; rewrite ?lookup_insert_eq; done. }
  unfold bind, lift. rewrite Hp'. unfold ret.
  eexists _, item'. split; [done|]. split; [done|done].
Qed.




(** One step of a call keeps the group well formed. *)
Lemma add_call_step_settled image_id group_id tenant safe
    (c : AddCall F) w (l : list string) :
  sanitize_tenant tenant = Ok safe →
  group_at w safe group_id l → NoDup l → call_settled image_id safe l c →
  ∃ l', group_at (add_call_step env image_id group_id tenant c w).2 safe group_id l'
    ∧ NoDup l'
    ∧ call_settled image_id safe l' (add_call_step env image_id group_id tenant c w).1
    ∧ (∀ x, x ∈ l → x ∈ l')
    ∧ (steps_left (add_call_step env image_id group_id tenant c w).1 ≤ pred (steps_left c))%nat
    ∧ (image_id ∈ l → l' = l).
Proof.
  intros Hs (item & g & Hitem & Hparse & Hl) Hnd Hc.
  pose proof (parse_group_fields _ _ Hparse) as (_ & _ & Hids & _).
  destruct c as [|s|r]; cbn [add_call_step].
  - rewrite Hs. destruct (decide (image_id ∈ imageIds g)) as [Hin|Hnin].
    + erewrite update_item_append_present by done. cbn [fst snd].
      exists l. split; [by exists item, g|]. subst l. repeat split; auto.
    + erewrite update_item_append_absent by done. cbn [fst snd].
      set (item' := <["updatedAt":=_]> (<["imageIds":=_]> item)).
      assert (parse_group item' = Ok (appended g image_id (strftime_now env))) as Hp'.
      { pose proof (parse_group_fields _ _ Hparse)
          as (H1 & H2 & _ & H4 & H5 & H6 & H7 & H8 & H9).
        apply parse_group_intro; unfold item', appended;
          cbn [groupId primaryImageId imageIds productName category confidence
               createdAt updatedAt pg_tenant];
          rewrite ?lookup_insert_eq, ?lookup_insert_ne by done;
          rewrite ?lookup_insert_eq; done. }
      rewrite Hp'. exists (l ++ [image_id]). split; [|split; [|split; [|split; [|split]]]].
      * exists item', (appended g image_id (strftime_now env)).
        cbn [set_table table]. rewrite lookup_insert_eq. subst l. done.
      * subst l. apply NoDup_app. split; [done|]. split; [|apply NoDup_singleton].
        intros x Hx ->%list_elem_of_singleton. done.
      * cbn. split; [by eexists|]. apply elem_of_app. right. by left.
      * intros x Hx. apply elem_of_app. by left.
      * cbn. lia.
      * subst l. done.
  - destruct Hc as [-> Hin].
    erewrite get_product_group_by_id_found;
      [|by eapply sanitize_tenant_idemp|done|done]. cbn [fst snd].
    exists l. split; [by exists item, g|]. repeat split; auto. by eexists.
  - exists l. cbn [fst snd]. split; [by exists item, g|]. repeat split; auto; apply Hc.
Qed.

Lemma run_schedule_settled image_id group_id tenant safe (schedule : list bool)
    (c1 c2 : AddCall F) w (l : list string) :
  sanitize_tenant tenant = Ok safe →
  group_at w safe group_id l → NoDup l →
  call_settled image_id safe l c1 → call_settled image_id safe l c2 →
  let r := run_schedule env image_id group_id tenant schedule c1 c2 w in
  ∃ l', group_at r.2 safe group_id l' ∧ NoDup l'
    ∧ call_settled image_id safe l' r.1.1 ∧ call_settled image_id safe l' r.1.2
    ∧ (steps_left r.1.1 ≤ steps_left c1 - length (filter (λ b, b = true) schedule))%nat
    ∧ (steps_left r.1.2 ≤ steps_left c2 - length (filter (λ b, b = false) schedule))%nat.
Proof.
  intros Hs. revert c1 c2 w l.
  induction schedule as [|turn rest IH]; intros c1 c2 w l Hg Hnd H1 H2.
  - exists l. cbn. repeat split; auto; lia.
  - assert (Hmono : ∀ (c : AddCall F) (l l' : list string),
      (∀ x, x ∈ l → x ∈ l') → call_settled image_id safe l c →
      call_settled image_id safe l' c).
    { intros [|s|r] ? ? Hsub; cbn; [done| |]; intros [? ?]; split; auto. }
    destruct turn; cbn [run_schedule].
    + destruct (add_call_step_settled image_id group_id tenant safe c1 w l Hs Hg Hnd H1)
        as (l1 & Hg1 & Hnd1 & Hc1 & Hsub & Hleft & _).
      destruct (IH _ c2 _ l1 Hg1 Hnd1 Hc1 (Hmono c2 _ _ Hsub H2))
        as (l' & ? & ? & ? & ? & Hl1 & Hl2).
      exists l'. do 4 (split; [done|]). split.
      * rewrite filter_cons_True by done. cbn [length]. lia.
      * rewrite filter_cons_False by done. lia.
    + destruct (add_call_step_settled image_id group_id tenant safe c2 w l Hs Hg Hnd H2)
        as (l1 & Hg1 & Hnd1 & Hc1 & Hsub & Hleft & _).
      destruct (IH c1 _ _ l1 Hg1 Hnd1 (Hmono c1 _ _ Hsub H1) Hc1)
        as (l' & ? & ? & ? & ? & Hl1 & Hl2).
      exists l'. do 4 (split; [done|]). split.
      * rewrite filter_cons_False by done. lia.
      * rewrite filter_cons_True by done. cbn [length]. lia.
Qed.

Lemma parse_group_Err item e : parse_group item = Err e → e = ValidationError.
Proof. unfold parse_group. intros H. repeat case_match; congruence. Qed.

(** A call run on its own is [add_image_to_group_record]. *)
Lemma add_call_alone image_id group_id tenant w :
  let r1 := add_call_step env image_id group_id tenant AddStart w in
  let r2 := add_call_step env image_id group_id tenant r1.1 r1.2 in
  r2 = (AddReturned (add_image_to_group_record env image_id group_id tenant w).1,
        (add_image_to_group_record env image_id group_id tenant w).2).
Proof.
  cbn zeta. unfold add_image_to_group_record. cbn [add_call_step].
  unfold try_except, bind, lift, ret, raise. destruct (sanitize_tenant tenant) as [safe|e]; [|done].
  destruct (update_item_append _ _ _ _ _ w) as [[attributes|e] w'].
  - cbn [fst snd add_call_step].
    destruct (parse_group attributes) as [g|e] eqn:Hp; [done|].
    by apply parse_group_Err in Hp as ->.
  - destruct e; cbn [fst snd add_call_step]; done.
Qed.

Lemma filter_eq_absent (x : string) (l : list string) :
  x ∉ l → filter (λ y, y = x) l = [].
Proof.
  induction l as [|y l IH]; intros Hx; [done|].
  rewrite filter_cons_False by (intros ->; apply Hx; by left).
  apply IH. intros ?. apply Hx. by right.
Qed.

Lemma NoDup_count_one (x : string) (l : list string) :
  NoDup l → x ∈ l → length (filter (λ y, y = x) l) = 1%nat.
Proof.
  induction 1 as [|y l Hy Hnd IH]; intros Hin; [by apply elem_of_nil in Hin|].
  destruct (decide (y = x)) as [->|Hne].
  - rewrite filter_cons_True by done. by rewrite filter_eq_absent.
  - rewrite filter_cons_False by done. apply IH.
    apply elem_of_cons in Hin as [->|?]; done.
Qed.

End StoreProperties.

(** C8. When the image id is already in the group's [imageIds],
    [add_image_to_group_record] changes nothing in the table, raises no error
    and returns the group as it is stored.  Adding the same image id to the
    same group twice, one call after the other or as two concurrent callers
    under any schedule that lets both finish, leaves the id exactly once in
    the group, and both calls return a group. *)
Theorem add_image_to_group_record_idempotent {F : Type} `{!PyFloat F} (env : Env F)
    (image_id group_id tenant safe : string) (w : World F)
    (item : gmap string (Attr F)) (g : ProductGroup F) :
  sanitize_tenant tenant = Ok safe →
  table w !! (pk_product_group safe, sk_group group_id) = Some item →
  parse_group item = Ok g →
  NoDup (imageIds g) →
  (image_id ∈ imageIds g →
     ∃ w', add_image_to_group_record env image_id group_id tenant w = (Ok (Some g), w')
           ∧ table w' = table w)
  ∧ (∃ g' w1 w2,
       add_image_to_group_record env image_id group_id tenant w = (Ok (Some g'), w1)
       ∧ add_image_to_group_record env image_id group_id tenant w1 = (Ok (Some g'), w2)
       ∧ table w2 = table w1
       ∧ group_at w2 safe group_id (imageIds g')
       ∧ length (filter (λ y, y = image_id) (imageIds g')) = 1%nat)
  ∧ (∀ schedule : list bool,
       (2 ≤ length (filter (λ turn, turn = true) schedule))%nat →
       (2 ≤ length (filter (λ turn, turn = false) schedule))%nat →
       ∃ g1 g2 w' l,
         run_schedule env image_id group_id tenant schedule AddStart AddStart w
         = (AddReturned (Ok (Some g1)), AddReturned (Ok (Some g2)), w')
         ∧ group_at w' safe group_id l
         ∧ length (filter (λ y, y = image_id) l) = 1%nat).
Proof.
  intros Hs Hitem Hparse Hnd. split; [|split].
  - intros Hin. by eapply add_image_present.
  - destruct (decide (image_id ∈ imageIds g)) as [Hin|Hnin].
    + destruct (add_image_present env image_id group_id tenant safe w item g)
        as (w1 & H1 & Ht1); [done..|].
      destruct (add_image_present env image_id group_id tenant safe w1 item g)
        as (w2 & H2 & Ht2); [done|by rewrite Ht1|done..|].
      exists g, w1, w2. repeat split; [done..| |].
      * exists item, g. by rewrite Ht2, Ht1.
      * by apply NoDup_count_one.
    + destruct (add_image_absent env image_id group_id tenant safe w item g)
        as (w1 & item' & H1 & Ht1 & Hp1); [done..|].
      assert (image_id ∈ imageIds (appended g image_id (strftime_now env))) as Hin'.
      { cbn. apply elem_of_app. right. by left. }
      destruct (add_image_present env image_id group_id tenant safe w1 item'
                  (appended g image_id (strftime_now env)))
        as (w2 & H2 & Ht2); [done|by rewrite Ht1, lookup_insert_eq|done..|].
      exists (appended g image_id (strftime_now env)), w1, w2. repeat split; [done..| |].
      * exists item', (appended g image_id (strftime_now env)).
        by rewrite Ht2, Ht1, lookup_insert_eq.
      * apply NoDup_count_one; [|done]. cbn. apply NoDup_app.
        split; [done|]. split; [|apply NoDup_singleton].
        intros x Hx ->%list_elem_of_singleton. done.
  - intros schedule Hturns1 Hturns2.
    destruct (run_schedule_settled env image_id group_id tenant safe schedule
                AddStart AddStart w (imageIds g))
      as (l & Hg & Hndl & Hc1 & Hc2 & Hleft1 & Hleft2); [done| |done..|].
    { by exists item, g. }
    destruct (run_schedule env image_id group_id tenant schedule AddStart AddStart w)
      as [[c1 c2] w'].
    cbn [fst snd steps_left] in *.
    destruct c1 as [| |r1]; cbn in Hleft1; try lia.
    destruct c2 as [| |r2]; cbn in Hleft2; try lia.
    destruct Hc1 as [[g1 ->] Hin], Hc2 as [[g2 ->] _].
    exists g1, g2, w', l. split; [done|]. split; [done|]. by apply NoDup_count_one.
Qed.

Lemma add_image_to_group_record_idempotent_witness :
  (∃ w', add_image_to_group_record sample_env "a" "pg_0000-0" "acme" grouped_world
         = (Ok (Some sample_group), w') ∧ table w' = table grouped_world)
  ∧ (∃ g' w1 w2,
       add_image_to_group_record sample_env "c" "pg_0000-0" "acme" grouped_world
       = (Ok (Some g'), w1)
       ∧ add_image_to_group_record sample_env "c" "pg_0000-0" "acme" w1 = (Ok (Some g'), w2)
       ∧ table w2 = table w1
       ∧ group_at w2 "acme" "pg_0000-0" (imageIds g')
       ∧ length (filter (λ y, y = "c") (imageIds g')) = 1%nat).
Proof.
  assert (Hitem : table grouped_world !! (pk_product_group "acme", sk_group "pg_0000-0")
                  = Some (default ∅ (table grouped_world
                                       !! (pk_product_group "acme", sk_group "pg_0000-0"))))
    by (vm_compute; reflexivity).
  assert (Hparse : parse_group (default ∅ (table grouped_world
                                  !! (pk_product_group "acme", sk_group "pg_0000-0")))
                   = Ok sample_group) by (vm_compute; reflexivity).
  assert (Hnd : NoDup (imageIds sample_group)) by (apply (bool_decide_unpack _); vm_compute; exact I).
  split.
  - apply (add_image_to_group_record_idempotent sample_env "a" "pg_0000-0" "acme" "acme"
             grouped_world _ sample_group eq_refl Hitem Hparse Hnd).
    apply (bool_decide_unpack _); vm_compute; exact I.
  - apply (add_image_to_group_record_idempotent sample_env "c" "pg_0000-0" "acme" "acme"
             grouped_world _ sample_group eq_refl Hitem Hparse Hnd).
Defined.



(** ** Sanitized keys *)

Section RequestKeys.
Context {F : Type} `{!PyFloat F} (env : Env F).
Implicit Types (w : World F) (safe tenant : string).

Lemma sends_safe_ret {A} safe (a : A) : sends_safe (F:=F) safe (ret a).
Proof. intros w. exists []. by rewrite app_nil_r. Qed.

Lemma sends_safe_raise {A} safe e : sends_safe (F:=F) (A:=A) safe (raise e).
Proof. intros w. exists []. by rewrite app_nil_r. Qed.

Lemma sends_safe_lift {A} safe (r : Result A) : sends_safe (F:=F) safe (lift r).
Proof. intros w. exists []. by rewrite app_nil_r. Qed.

Lemma sends_safe_bind {A B} safe (m : M F A) (k : A → M F B) :
  sends_safe safe m → (∀ a, sends_safe safe (k a)) → sends_safe safe (bind m k).
Proof.
  intros Hm Hk w. unfold bind. destruct (Hm w) as (s1 & Hr1 & Hf1).
  destruct (m w) as [[a|e] w1]; cbn [snd] in *.
  - destruct (Hk a w1) as (s2 & Hr2 & Hf2). exists (s1 ++ s2).
    rewrite Hr2, Hr1, app_assoc. split; [done|]. by apply Forall_app.
  - by exists s1.
Qed.

Lemma sends_safe_try_except {A} safe (m : M F A) (h : PyError → M F A) :
  sends_safe safe m → (∀ e, sends_safe safe (h e)) → sends_safe safe (try_except m h).
Proof.
  intros Hm Hh w. unfold try_except. destruct (Hm w) as (s1 & Hr1 & Hf1).
  destruct (m w) as [[a|e] w1]; cbn [snd] in *.
  - by exists s1.
  - destruct (Hh e w1) as (s2 & Hr2 & Hf2). exists (s1 ++ s2).
    rewrite Hr2, Hr1, app_assoc. split; [done|]. by apply Forall_app.
Qed.

Lemma sends_safe_for_each {A S} safe (xs : list A) (body : A → S → M F S) (acc : S) :
  (∀ x acc, sends_safe safe (body x acc)) → sends_safe safe (for_each xs body acc).
Proof.
  intros Hbody. revert acc. induction xs as [|x xs IH]; intros acc; cbn [for_each].
  - apply sends_safe_ret.
  - apply sends_safe_bind; auto.
Qed.

Lemma sends_safe_sanitize {A} tenant safe (k : string → M F A) :
  sanitize_tenant tenant = Ok safe → sends_safe safe (k safe) →
  sends_safe safe (bind (lift (sanitize_tenant tenant)) k).
Proof. intros Hs Hk w. rewrite (lift_sanitize _ safe) by done. apply Hk. Qed.

Ltac one_request :=
  intros w; eexists [_]; split; [reflexivity|]; constructor; [cbn; auto|constructor].

Lemma sends_safe_put_item safe pk sk item :
  pk = pk_embedding safe ∨ pk = pk_product_group safe →
  sends_safe (F:=F) safe (put_item pk sk item).
Proof. intros Hpk. one_request. Qed.

Lemma sends_safe_get_item safe pk sk :
  pk = pk_embedding safe ∨ pk = pk_product_group safe →
  sends_safe (F:=F) safe (get_item pk sk).
Proof. intros Hpk. one_request. Qed.

Lemma sends_safe_update_item_set safe pk sk sets :
  pk = pk_embedding safe ∨ pk = pk_product_group safe →
  sends_safe (F:=F) safe (update_item_set pk sk sets).
Proof. intros Hpk. one_request. Qed.

Lemma sends_safe_update_item_append safe pk sk a x now :
  pk = pk_embedding safe ∨ pk = pk_product_group safe →
  sends_safe (F:=F) safe (update_item_append pk sk a x now).
Proof.
  intros Hpk w. exists [{| rq_op := UpdateItem; rq_pk := pk; rq_sk := Some sk |}].
  split; [|constructor; [cbn; auto|constructor]].
  unfold update_item_append. repeat case_match; reflexivity.
Qed.

Lemma sends_safe_query safe pk forward :
  pk = pk_embedding safe ∨ pk = pk_product_group safe →
  sends_safe (F:=F) safe (query pk forward).
Proof. intros Hpk. one_request. Qed.

Lemma sends_safe_draw_uuid safe : sends_safe safe (draw_uuid env).
Proof. intros w. exists []. by rewrite app_nil_r. Qed.

Ltac sends :=
  repeat first
    [ progress cbv beta zeta
    | match goal with |- ∀ _, _ => intro end
    | match goal with |- sends_safe _ (bind _ _) => apply sends_safe_bind end
    | match goal with |- sends_safe _ (try_except _ _) => apply sends_safe_try_except end
    | match goal with |- sends_safe _ (for_each _ _ _) => apply sends_safe_for_each end
    | match goal with |- sends_safe _ (ret _) => apply sends_safe_ret end
    | match goal with |- sends_safe _ (raise _) => apply sends_safe_raise end
    | match goal with |- sends_safe _ (lift _) => apply sends_safe_lift end
    | match goal with |- sends_safe _ (put_item _ _ _) => apply sends_safe_put_item; auto end
    | match goal with |- sends_safe _ (get_item _ _) => apply sends_safe_get_item; auto end
    | match goal with |- sends_safe _ (update_item_set _ _ _) =>
        apply sends_safe_update_item_set; auto end
    | match goal with |- sends_safe _ (update_item_append _ _ _ _ _) =>
        apply sends_safe_update_item_append; auto end
    | match goal with |- sends_safe _ (query _ _) => apply sends_safe_query; auto end
    | match goal with |- sends_safe _ (draw_uuid _) => apply sends_safe_draw_uuid end
    | match goal with |- sends_safe _ (match ?x with _ => _ end) => destruct x end
    | match goal with |- sends_safe _ (if ?x then _ else _) => destruct x end ].

Section ForTenant.
Context (tenant safe : string) (Hs : sanitize_tenant tenant = Ok safe).

Lemma sanitize_safe : sanitize_tenant safe = Ok safe.
Proof. by eapply sanitize_tenant_idemp. Qed.

Lemma sends_safe_store_embedding image_id embedding metadata :
  sends_safe safe (store_embedding env image_id embedding tenant metadata).
Proof. apply (sends_safe_sanitize _ safe); [done|]. sends. Qed.

Lemma sends_safe_get_embeddings limit : sends_safe (F:=F) safe (get_embeddings tenant limit).
Proof. apply (sends_safe_sanitize _ safe); [done|]. sends. Qed.

End ForTenant.

Lemma sends_safe_find_similar_images tenant safe embedding exclude :
  sanitize_tenant tenant = Ok safe →
  sends_safe (F:=F) safe (find_similar_images embedding tenant exclude).
Proof.
  intros Hs. apply (sends_safe_sanitize _ safe); [done|]. sends.
  apply sends_safe_get_embeddings. by eapply sanitize_tenant_idemp.
Qed.

Lemma sends_safe_link_image_to_group tenant safe image_id group_id :
  sanitize_tenant tenant = Ok safe →
  sends_safe safe (link_image_to_group env image_id group_id tenant).
Proof. intros Hs. apply (sends_safe_sanitize _ safe); [done|]. sends. Qed.

Lemma sends_safe_create_product_group tenant safe image_ids name cat :
  sanitize_tenant tenant = Ok safe →
  sends_safe safe (create_product_group env image_ids tenant name cat).
Proof.
  intros Hs. unfold create_product_group. destruct image_ids; [sends|].
  apply (sends_safe_sanitize _ safe); [done|]. sends.
  apply sends_safe_link_image_to_group. by eapply sanitize_tenant_idemp.
Qed.

Lemma sends_safe_get_product_group_by_id tenant safe group_id :
  sanitize_tenant tenant = Ok safe →
  sends_safe (F:=F) safe (get_product_group_by_id group_id tenant).
Proof. intros Hs. apply (sends_safe_sanitize _ safe); [done|]. sends. Qed.

Lemma sends_safe_add_image_to_group_record tenant safe image_id group_id :
  sanitize_tenant tenant = Ok safe →
  sends_safe safe (add_image_to_group_record env image_id group_id tenant).
Proof.
  intros Hs. apply (sends_safe_sanitize _ safe); [done|]. sends.
  apply sends_safe_get_product_group_by_id. by eapply sanitize_tenant_idemp.
Qed.

Lemma sends_safe_get_product_groups tenant safe limit :
  sanitize_tenant tenant = Ok safe →
  sends_safe (F:=F) safe (get_product_groups tenant limit).
Proof. intros Hs. apply (sends_safe_sanitize _ safe); [done|]. sends. Qed.

Lemma sends_safe_generate_image_embedding safe buffer :
  sends_safe safe (generate_image_embedding env buffer).
Proof. unfold generate_image_embedding. sends. Qed.

Lemma sends_safe_process_image_for_grouping tenant safe image_id buffer metadata :
  sanitize_tenant tenant = Ok safe →
  sends_safe safe (process_image_for_grouping env image_id buffer tenant metadata).
Proof.
  intros Hs. pose proof (sanitize_tenant_idemp _ _ Hs) as Hs'.
  apply (sends_safe_sanitize _ safe); [done|].
  apply sends_safe_bind; [apply sends_safe_generate_image_embedding|intros embedding].
  apply sends_safe_bind; [by apply sends_safe_store_embedding|intros _].
  apply sends_safe_bind; [by apply sends_safe_find_similar_images|intros similar].
  apply sends_safe_bind; [|sends].
  destruct (head similar) as [best|]; [|sends].
  destruct (_ && _).
  { apply sends_safe_bind; [|sends]. apply sends_safe_try_except; [|sends].
    apply sends_safe_bind; [by apply sends_safe_link_image_to_group|intros _].
    by apply sends_safe_add_image_to_group_record. }
  destruct (_ || _); [|sends].
  apply sends_safe_bind; [by apply sends_safe_create_product_group|sends].
Qed.

Lemma sends_safe_batch_process tenant safe images stage include_existing :
  sanitize_tenant tenant = Ok safe →
  sends_safe safe (batch_process_with_multi_signal env images tenant stage include_existing).
Proof.
  intros Hs. pose proof (sanitize_tenant_idemp _ _ Hs) as Hs'.
  apply (sends_safe_sanitize _ safe); [done|].
  apply sends_safe_bind.
  { apply sends_safe_for_each. intros entry acc. unfold keep_embedding.
    apply sends_safe_bind; [|sends]. apply sends_safe_try_except; [|sends].
    by apply sends_safe_store_embedding. }
  intros new_embeddings. apply sends_safe_bind.
  { unfold gather_embeddings. destruct include_existing; [|sends].
    apply sends_safe_bind; [by apply sends_safe_get_embeddings|sends]. }
  intros all_embeddings. apply sends_safe_bind; [sends|]. intros clusters.
  apply sends_safe_bind; [|sends].
  apply sends_safe_for_each. intros ids acc. unfold materialize_cluster.
  destruct (negb _); [sends|]. destruct (1 <? _)%nat; [|sends].
  apply sends_safe_bind; [by apply sends_safe_create_product_group|sends].
Qed.

(** With a tenant that sanitizes to nothing, an operation stops before it
    builds a key. *)
Lemma run_op_invalid_tenant tenant (op : EngineOp F) w :
  sanitize_tenant tenant = Err InvalidTenantError →
  run_op env tenant op w
  = (Some match op with
          | OpCreateProductGroup [] _ _ => EmptyGroupError
          | _ => InvalidTenantError
          end, w).
Proof.
  intros He. destruct op; cbn [run_op];
    try match goal with |- context [create_product_group _ ?l] => destruct l end;
    unfold store_embedding, get_embeddings, find_similar_images, create_product_group,
      link_image_to_group, add_image_to_group_record, get_product_group_by_id,
      get_product_groups, process_image_for_grouping, batch_process_with_multi_signal;
    unfold bind, lift, raise; rewrite ?He; reflexivity.
Qed.

Lemma run_op_sends_safe tenant safe (op : EngineOp F) w :
  sanitize_tenant tenant = Ok safe →
  ∃ sent, requests (run_op env tenant op w).2 = requests w ++ sent
    ∧ Forall (λ rq, rq_pk rq = pk_embedding safe ∨ rq_pk rq = pk_product_group safe) sent.
Proof.
  intros Hs. destruct op; cbn [run_op snd].
  - by apply sends_safe_store_embedding.
  - by apply sends_safe_get_embeddings.
  - by apply sends_safe_find_similar_images.
  - by apply sends_safe_create_product_group.
  - by apply sends_safe_link_image_to_group.
  - by apply sends_safe_add_image_to_group_record.
  - by apply sends_safe_get_product_group_by_id.
  - by apply sends_safe_get_product_groups.
  - by apply sends_safe_process_image_for_grouping.
  - by apply sends_safe_batch_process.
Qed.

End RequestKeys.

(** C10.  Sanitization keeps the characters of the allowed set
    [a-zA-Z0-9_-], in order, and drops all others, so ["ab/c#1"] becomes
    ["abc1"]; a tenant that is empty or holds disallowed characters only is
    rejected with [InvalidTenantError].  Every operation sanitizes before it
    builds a key: each request it sends carries a partition key built from
    the sanitized tenant, and with a rejected tenant it fails without sending
    any request ([create_product_group] on an empty list fails on the list
    first). *)
Theorem tenant_sanitized_before_keys {F : Type} `{!PyFloat F} (env : Env F)
    (tenant : string) :
  (∀ safe, sanitize_tenant tenant = Ok safe →
     list_ascii_of_string safe = List.filter tenant_char (list_ascii_of_string tenant)
     ∧ safe ≠ "")
  ∧ (List.filter tenant_char (list_ascii_of_string tenant) = []
     ↔ sanitize_tenant tenant = Err InvalidTenantError)
  ∧ sanitize_tenant "ab/c#1" = Ok "abc1"
  ∧ (∀ (op : EngineOp F) (w : World F),
       ∃ sent, requests (run_op env tenant op w).2 = requests w ++ sent
         ∧ Forall (λ rq, sanitized_key tenant (rq_pk rq)) sent)
  ∧ (∀ (op : EngineOp F) (w : World F),
       List.filter tenant_char (list_ascii_of_string tenant) = [] →
       run_op env tenant op w
       = (Some match op with
               | OpCreateProductGroup [] _ _ => EmptyGroupError
               | _ => InvalidTenantError
               end, w)).
Proof.
  assert (Hempty : List.filter tenant_char (list_ascii_of_string tenant) = []
                   ↔ sanitize_tenant tenant = Err InvalidTenantError).
  { rewrite <- strip_disallowed_filter, sanitize_tenant_Err. split.
    - intros Hnil. split; [|done].
      rewrite <- (string_of_list_ascii_of_string (strip_disallowed tenant)). by rewrite Hnil.
    - by intros [-> _]. }
  split; [|split; [done|split; [done|split]]].
  - intros safe [<- Hne]%sanitize_tenant_Ok. split; [apply strip_disallowed_filter|done].
  - intros op w. destruct (sanitize_tenant tenant) as [safe|e] eqn:Hs.
    + destruct (run_op_sends_safe env tenant safe op w Hs) as (sent & Hr & Hf).
      exists sent. split; [done|]. eapply Forall_impl; [exact Hf|].
      intros rq Hpk. exists safe. split; [done|]. split; [|done].
      apply sanitize_tenant_Ok in Hs as [<- _]. apply strip_disallowed_chars.
    + exists []. apply sanitize_tenant_Err in Hs as Hs'. destruct Hs' as [_ ->].
      rewrite (run_op_invalid_tenant env tenant op w Hs). cbn. by rewrite app_nil_r.
  - intros op w Hnil. apply run_op_invalid_tenant. by apply Hempty.
Qed.

(** ** The per-image orchestrator *)

Section Orchestrator.
Context {F : Type} `{!PyFloat F} `{!PyFloatOrder F} (env : Env F).
Implicit Types (w : World F) (m : SimilarityMatch F) (matches : list (SimilarityMatch F)).

(** *** Ranking *)





(** *** Candidates *)



(** *** Links *)




Lemma keeps_ret {A} k (a : A) : keeps (F:=F) k (ret a).
Proof. done. Qed.

Lemma keeps_raise {A} k e : keeps k (raise e : M F A).
Proof. done. Qed.

Lemma keeps_lift {A} k (r : Result A) : keeps (F:=F) k (lift r).
Proof. intros w. unfold lift. by destruct r. Qed.

Lemma keeps_bind {A B} k (m : M F A) (f : A → M F B) :
  keeps k m → (∀ a, keeps k (f a)) → keeps k (bind m f).
Proof.
  intros Hm Hf w. unfold bind. specialize (Hm w). destruct (m w) as [[a|e] w1]; [|done].
  cbn [snd] in Hm. by rewrite Hf.
Qed.

Lemma keeps_try_except {A} k (m : M F A) (h : PyError → M F A) :
  keeps k m → (∀ e, keeps k (h e)) → keeps k (try_except m h).
Proof.
  intros Hm Hh w. unfold try_except. specialize (Hm w). destruct (m w) as [[a|e] w1]; [done|].
  cbn [snd] in Hm. by rewrite Hh.
Qed.

Lemma keeps_get_item k pk sk : keeps (F:=F) k (get_item pk sk).
Proof. done. Qed.

Lemma keeps_update_item_append k pk sk a x now :
  k ≠ (pk, sk) → keeps (F:=F) k (update_item_append pk sk a x now).
Proof.
  intros Hk w. unfold update_item_append.
  repeat case_match; cbn [snd set_table table log_request];
    rewrite ?lookup_insert_ne by done; done.
Qed.

Lemma keeps_get_product_group_by_id k group_id tenant :
  keeps k (get_product_group_by_id (F:=F) group_id tenant).
Proof.
  unfold get_product_group_by_id.
  apply keeps_bind; [apply keeps_lift|]. intros safe.
  apply keeps_bind; [apply keeps_get_item|]. intros [item|]; [|apply keeps_ret].
  apply keeps_bind; [apply keeps_lift|]. intros g. apply keeps_ret.
Qed.








End Orchestrator.



(** ** The batch pipeline *)

Section BatchEmbedding.
Context {F : Type} `{!PyFloat F}.

Lemma dict_set_keys {V} (k : string) (v : V) (d : list (string * V)) (k' : string) :
  k' ∈ (dict_set k v d).*1 ↔ k' = k ∨ k' ∈ d.*1.
Proof.
  induction d as [|[k0 v0] d IH]; cbn [dict_set].
  - cbn. rewrite list_elem_of_singleton. set_solver.
  - case_bool_decide as Hk; cbn [fmap list_fmap fst]; subst.
    + rewrite !elem_of_cons. cbn. tauto.
    + change (list_fmap _ _ fst ?l) with (l.*1).
      rewrite !elem_of_cons, IH. cbn. tauto.
Qed.

Lemma dict_set_NoDup {V} (k : string) (v : V) (d : list (string * V)) :
  NoDup d.*1 → NoDup (dict_set k v d).*1.
Proof.
  induction d as [|[k0 v0] d IH]; cbn [dict_set]; intros Hnd.
  - cbn. apply NoDup_singleton.
  - cbn in Hnd. apply NoDup_cons in Hnd as [Hk0 Hnd].
    case_bool_decide as Hk; cbn; subst.
    + by apply NoDup_cons.
    + apply NoDup_cons. split; [|by apply IH].
      change (list_fmap _ _ fst ?l) with (l.*1).
      rewrite dict_set_keys. intros [?|?]; done.
Qed.

Lemma dict_set_values {V} (P : V → Prop) (k : string) (v : V) (d : list (string * V)) :
  P v → Forall (λ kv, P kv.2) d → Forall (λ kv, P kv.2) (dict_set k v d).
Proof.
  intros Hv. induction 1 as [|[k0 v0] d H0 Hd IH]; cbn [dict_set].
  - by repeat constructor.
  - case_bool_decide; constructor; done.
Qed.

Lemma embed_all_spec (images : list BatchImage)
    (acc : list (string * list F) * list (string * string)) :
  let result := foldl embed_one acc (batch_inputs images) in
  (NoDup acc.1.*1 → NoDup result.1.*1)
  ∧ (∀ id, id ∈ result.1.*1
           ↔ id ∈ acc.1.*1 ∨ id ∈ img_id <$> filter (λ img, oversized img = false) images)
  ∧ (Forall (λ kv, kv.2 = repeat (dec 1 10) 1024) acc.1 →
     Forall (λ kv, kv.2 = repeat (dec 1 10) 1024) result.1)
  ∧ result.2.*1 = acc.2.*1 ++ failed_ids images.
Proof.
  revert acc. induction images as [|img images IH]; intros acc; cbn zeta.
  - cbn. split; [done|]. split; [set_solver|]. split; [done|].
    unfold failed_ids. cbn. by rewrite app_nil_r.
  - unfold batch_inputs. rewrite fmap_cons. cbn [foldl]. fold (batch_inputs images).
    destruct (IH (embed_one acc {| ii_imageId := img_id img; ii_buffer := img_buffer img |}))
      as (Hnd & Hin & Hval & Herr). clear IH.
    unfold failed_ids in *. unfold embed_one in *. cbn [ii_imageId ii_buffer] in *.
    fold (oversized img) in *.
    destruct (oversized img) eqn:Hbig; cbn [fst snd] in *.
    + rewrite (filter_cons_True (λ img, oversized img = true)) by done.
      rewrite (filter_cons_False (λ img, oversized img = false)) by (by rewrite Hbig).
      split; [done|]. split; [done|]. split; [done|].
      rewrite Herr, fmap_app, fmap_cons. cbn. by rewrite <- app_assoc.
    + rewrite (filter_cons_False (λ img, oversized img = true)) by (by rewrite Hbig).
      rewrite (filter_cons_True (λ img, oversized img = false)) by done.
      split; [intros ?; by apply Hnd, dict_set_NoDup|].
      split; [|split; [|done]].
      * intros id. rewrite Hin, dict_set_keys, fmap_cons, elem_of_cons. tauto.
      * intros Hacc. apply Hval. by apply (dict_set_values (λ v, v = _)).
Qed.

End BatchEmbedding.

Section BatchStore.
Context {F : Type} `{!PyFloat F} (env : Env F).


End BatchStore.

Section ClusterShape.
Context {F : Type} `{!PyFloat F}.
Implicit Types (embeddings items : list (ProductEmbedding F)).

Lemma cluster_scan_ext sim1 sim2 threshold item (others : list (ProductEmbedding F))
    cluster assigned :
  (∀ o, o ∈ others → sim1 item o = sim2 item o) →
  cluster_scan sim1 threshold item others cluster assigned
  = cluster_scan sim2 threshold item others cluster assigned.
Proof.
  revert cluster assigned. induction others as [|o rest IH]; intros cluster assigned Hext;
    [done|].
  cbn [cluster_scan]. rewrite <- (Hext o) by by left.
  assert (∀ c a, cluster_scan sim1 threshold item rest c a
                 = cluster_scan sim2 threshold item rest c a) as IH'.
  { intros c a. apply IH. intros o' Ho'. apply Hext. by right. }
  by rewrite !IH'.
Qed.

Lemma cluster_loop_ext sim1 sim2 threshold embeddings items clusters assigned :
  (∀ i o, i ∈ items → o ∈ embeddings → sim1 i o = sim2 i o) →
  cluster_loop sim1 threshold embeddings items clusters assigned
  = cluster_loop sim2 threshold embeddings items clusters assigned.
Proof.
  revert clusters assigned. induction items as [|item rest IH]; intros clusters assigned Hext;
    [done|].
  cbn [cluster_loop].
  assert (∀ c a, cluster_loop sim1 threshold embeddings rest c a
                 = cluster_loop sim2 threshold embeddings rest c a) as IH'.
  { intros c a. apply IH. intros i o Hi Ho. apply Hext; [by right|done]. }
  rewrite (cluster_scan_ext sim1 sim2) by (intros o Ho; apply Hext; [by left|done]).
  rewrite IH'. destruct (cluster_scan sim2 _ _ _ _ _) as [[c a]|e]; [|done].
  by rewrite IH'.
Qed.

Lemma seed_clusters_shape sim threshold items (cluster : list string) :
  cluster ∈ seed_clusters sim threshold items →
  ∃ seed rest,
    sublist (seed :: rest) items
    ∧ cluster = pe_imageId seed
                :: (pe_imageId <$> filter (λ o, (sim seed o >=~ threshold) = true) rest).
Proof.
  funelim (seed_clusters sim threshold items); simp seed_clusters.
  - by intros ?%elem_of_nil.
  - intros [->|Hin]%elem_of_cons.
    + by exists seed, rest.
    + destruct (H _ Hin) as (seed' & rest' & Hsub & ->).
      exists seed', rest'. split; [|done].
      apply sublist_cons. etrans; [exact Hsub|]. apply sublist_filter.
Qed.

End ClusterShape.

Section BatchClusters.
Context {F : Type} `{!PyFloat F} `{!PyFloatOrder F}.
Implicit Types (image_metadata_map : gmap string (ImageFeatures F)).




Lemma cosine_similarity_total (a b : list F) :
  length a = length b → a ≠ [] → ∃ s, cosine_similarity a b = Ok s.
Proof.
  intros Hlen Ha. unfold cosine_similarity.
  destruct a as [|x a]; [done|]. destruct b as [|y b]; [done|].
  cbn [is_nil orb]. rewrite Hlen, Nat.eqb_refl. cbn [negb]. by eexists.
Qed.



Lemma seed_clusters_nonempty (sim : ProductEmbedding F → ProductEmbedding F → F) threshold
    (items : list (ProductEmbedding F)) (cluster : list string) :
  cluster ∈ seed_clusters sim threshold items → cluster ≠ [].
Proof. intros (seed & rest & _ & ->)%seed_clusters_shape. done. Qed.




End BatchClusters.

Section BatchGroups.
Context {F : Type} `{!PyFloat F} (env : Env F).

Lemma keeps_put_item k pk sk (item : gmap string (Attr F)) :
  k ≠ (pk, sk) → keeps k (put_item pk sk item).
Proof. intros Hk w. cbn. by rewrite lookup_insert_ne. Qed.

Lemma keeps_update_item_set k pk sk (sets : list (string * Attr F)) :
  k ≠ (pk, sk) → keeps k (update_item_set pk sk sets).
Proof. intros Hk w. cbn. by rewrite lookup_insert_ne. Qed.

Lemma keeps_draw_uuid k : keeps k (draw_uuid env).
Proof. done. Qed.

Lemma keeps_for_each {A S} k (xs : list A) (body : A → S → M F S) acc :
  (∀ x acc, x ∈ xs → keeps k (body x acc)) → keeps k (for_each xs body acc).
Proof.
  revert acc. induction xs as [|x xs IH]; intros acc Hbody; [done|].
  cbn [for_each]. apply keeps_bind; [apply Hbody; by left|].
  intros acc'. apply IH. intros y acc'' Hy. apply Hbody. by right.
Qed.




End BatchGroups.

Section BatchRun.
Context {F : Type} `{!PyFloat F} `{!PyFloatOrder F} (env : Env F).


End BatchRun.



Section BatchClaims.
Context {F : Type} `{!PyFloat F} `{!PyFloatOrder F} (env : Env F).



End BatchClaims.




(** * Further properties *)

(** ** Cosine similarity in exact arithmetic *)

Section ExactCosine.
Open Scope R_scope.













End ExactCosine.

(** ** Tenants *)

Section TenantIsolation.
Context {F : Type} `{!PyFloat F} (env : Env F).
Implicit Types (w : World F) (safe tenant : string).

Lemma keeps_query k pk forward : keeps (F:=F) k (query pk forward).
Proof. done. Qed.

Ltac kept :=
  repeat first
    [ progress cbv beta zeta
    | match goal with |- ∀ _, _ => intro end
    | match goal with |- keeps _ (bind _ _) => apply keeps_bind end
    | match goal with |- keeps _ (try_except _ _) => apply keeps_try_except end
    | match goal with |- keeps _ (for_each _ _ _) => apply keeps_for_each end
    | match goal with |- keeps _ (ret _) => apply keeps_ret end
    | match goal with |- keeps _ (raise _) => apply keeps_raise end
    | match goal with |- keeps _ (lift _) => apply keeps_lift end
    | match goal with |- keeps _ (put_item _ _ _) => apply keeps_put_item; auto end
    | match goal with |- keeps _ (get_item _ _) => apply keeps_get_item end
    | match goal with |- keeps _ (update_item_set _ _ _) =>
        apply keeps_update_item_set; auto end
    | match goal with |- keeps _ (update_item_append _ _ _ _ _) =>
        apply keeps_update_item_append; auto end
    | match goal with |- keeps _ (query _ _) => apply keeps_query end
    | match goal with |- keeps _ (draw_uuid _) => apply keeps_draw_uuid end
    | match goal with |- keeps _ (match ?x with _ => _ end) => destruct x end
    | match goal with |- keeps _ (if ?x then _ else _) => destruct x end ].

Lemma keeps_sanitized {A} k tenant safe (body : string → M F A) :
  sanitize_tenant tenant = Ok safe → keeps k (body safe) →
  keeps k (bind (lift (sanitize_tenant tenant)) body).
Proof. intros Hs Hbody w. by rewrite (lift_sanitize _ safe). Qed.

Lemma other_embedding_key safe k sk :
  other_partition safe k → k ≠ (pk_embedding safe, sk).
Proof. intros [Hk _] ->. by apply Hk. Qed.

Lemma other_group_key safe k sk :
  other_partition safe k → k ≠ (pk_product_group safe, sk).
Proof. intros [_ Hk] ->. by apply Hk. Qed.

Hint Resolve other_embedding_key other_group_key : core.

Lemma keeps_store_embedding k tenant safe image_id embedding metadata :
  sanitize_tenant tenant = Ok safe → other_partition safe k →
  keeps k (store_embedding env image_id embedding tenant metadata).
Proof. intros Hs Hk. apply (keeps_sanitized _ _ safe); [done|]. kept. Qed.

Lemma keeps_get_embeddings k tenant limit : keeps (F:=F) k (get_embeddings tenant limit).
Proof. unfold get_embeddings. kept. Qed.

Lemma keeps_find_similar_images k embedding tenant exclude :
  keeps (F:=F) k (find_similar_images embedding tenant exclude).
Proof. unfold find_similar_images. kept. apply keeps_get_embeddings. Qed.

Lemma keeps_link_image_to_group k tenant safe image_id group_id :
  sanitize_tenant tenant = Ok safe → other_partition safe k →
  keeps k (link_image_to_group env image_id group_id tenant).
Proof. intros Hs Hk. apply (keeps_sanitized _ _ safe); [done|]. kept. Qed.

Lemma keeps_create_product_group k tenant safe image_ids name cat :
  sanitize_tenant tenant = Ok safe → other_partition safe k →
  keeps k (create_product_group env image_ids tenant name cat).
Proof.
  intros Hs Hk. unfold create_product_group. destruct image_ids; [kept|].
  apply (keeps_sanitized _ _ safe); [done|]. kept.
  apply (keeps_link_image_to_group _ safe safe); [by eapply sanitize_tenant_idemp|done].
Qed.

Lemma keeps_add_image_to_group_record k tenant safe image_id group_id :
  sanitize_tenant tenant = Ok safe → other_partition safe k →
  keeps k (add_image_to_group_record env image_id group_id tenant).
Proof.
  intros Hs Hk. apply (keeps_sanitized _ _ safe); [done|]. kept.
  apply keeps_get_product_group_by_id.
Qed.

Lemma keeps_get_product_groups k tenant limit :
  keeps (F:=F) k (get_product_groups tenant limit).
Proof. unfold get_product_groups. kept. Qed.

Lemma keeps_generate_image_embedding k buffer :
  keeps k (generate_image_embedding env buffer).
Proof. unfold generate_image_embedding. kept. Qed.

Lemma keeps_process_image_for_grouping k tenant safe image_id buffer metadata :
  sanitize_tenant tenant = Ok safe → other_partition safe k →
  keeps k (process_image_for_grouping env image_id buffer tenant metadata).
Proof.
  intros Hs Hk. pose proof (sanitize_tenant_idemp _ _ Hs) as Hs'.
  apply (keeps_sanitized _ _ safe); [done|].
  apply keeps_bind; [apply keeps_generate_image_embedding|intros embedding].
  apply keeps_bind; [by apply (keeps_store_embedding _ safe safe)|intros _].
  apply keeps_bind; [by apply keeps_find_similar_images|intros similar].
  apply keeps_bind; [|kept].
  destruct (head similar) as [best|]; [|kept].
  destruct (_ && _).
  { apply keeps_bind; [|kept]. apply keeps_try_except; [|kept].
    apply keeps_bind; [by apply (keeps_link_image_to_group _ safe safe)|intros _].
    by apply (keeps_add_image_to_group_record _ safe safe). }
  destruct (_ || _); [|kept].
  apply keeps_bind; [by apply (keeps_create_product_group _ safe safe)|kept].
Qed.

Lemma keeps_batch_process k tenant safe images stage include_existing :
  sanitize_tenant tenant = Ok safe → other_partition safe k →
  keeps k (batch_process_with_multi_signal env images tenant stage include_existing).
Proof.
  intros Hs Hk. pose proof (sanitize_tenant_idemp _ _ Hs) as Hs'.
  apply (keeps_sanitized _ _ safe); [done|].
  apply keeps_bind.
  { apply keeps_for_each. intros entry acc _. unfold keep_embedding.
    apply keeps_bind; [|kept]. apply keeps_try_except; [|kept].
    by apply (keeps_store_embedding _ safe safe). }
  intros new_embeddings. apply keeps_bind.
  { unfold gather_embeddings. destruct include_existing; [|kept].
    apply keeps_bind; [by apply keeps_get_embeddings|kept]. }
  intros all_embeddings. apply keeps_bind; [kept|]. intros clusters.
  apply keeps_bind; [|kept].
  apply keeps_for_each. intros ids acc _. unfold materialize_cluster.
  destruct (negb _); [kept|]. destruct (1 <? _)%nat; [|kept].
  apply keeps_bind; [by apply (keeps_create_product_group _ safe safe)|kept].
Qed.

Lemma run_op_keeps k tenant safe (op : EngineOp F) w :
  sanitize_tenant tenant = Ok safe → other_partition safe k →
  table (run_op env tenant op w).2 !! k = table w !! k.
Proof.
  intros Hs Hk. destruct op; cbn [run_op snd].
  - by apply (keeps_store_embedding _ tenant safe).
  - by apply keeps_get_embeddings.
  - by apply keeps_find_similar_images.
  - by apply (keeps_create_product_group _ tenant safe).
  - by apply (keeps_link_image_to_group _ tenant safe).
  - by apply (keeps_add_image_to_group_record _ tenant safe).
  - by apply keeps_get_product_group_by_id.
  - by apply keeps_get_product_groups.
  - by apply (keeps_process_image_for_grouping _ tenant safe).
  - by apply (keeps_batch_process _ tenant safe).
Qed.

(** Keys of different tenants. *)
Lemma list_ascii_of_string_app (a b : string) :
  list_ascii_of_string (a +:+ b) = list_ascii_of_string a ++ list_ascii_of_string b.
Proof. induction a as [|c a IH]; [done|]. simpl. f_equal. exact IH. Qed.

Lemma append_inj_l (a b s : string) : a +:+ s = b +:+ s → a = b.
Proof.
  intros Heq. apply (f_equal list_ascii_of_string) in Heq.
  rewrite !list_ascii_of_string_app in Heq. apply app_inv_tail in Heq.
  rewrite <- (string_of_list_ascii_of_string a), <- (string_of_list_ascii_of_string b).
  by rewrite Heq.
Qed.

Lemma pk_embedding_inj (s1 s2 : string) : pk_embedding s1 = pk_embedding s2 → s1 = s2.
Proof. unfold pk_embedding. by intros ?%append_inj_r%append_inj_l. Qed.

Lemma pk_product_group_inj (s1 s2 : string) :
  pk_product_group s1 = pk_product_group s2 → s1 = s2.
Proof. unfold pk_product_group. by intros ?%append_inj_r%append_inj_l. Qed.

Lemma pk_embedding_ne_product_group (s1 s2 : string) :
  pk_embedding s1 ≠ pk_product_group s2.
Proof.
  unfold pk_embedding, pk_product_group. intros Heq%append_inj_r.
  apply (f_equal (λ s, last (list_ascii_of_string s))) in Heq.
  rewrite !list_ascii_of_string_app in Heq.
  change (list_ascii_of_string "#EMBEDDING")
    with (list_ascii_of_string "#EMBEDDIN" ++ ["G"%char]) in Heq.
  change (list_ascii_of_string "#PRODUCT_GROUP")
    with (list_ascii_of_string "#PRODUCT_GROU" ++ ["P"%char]) in Heq.
  rewrite !app_assoc, !last_snoc in Heq. discriminate.
Qed.

Lemma other_tenant_partitions (s1 s2 sk : string) :
  s1 ≠ s2 →
  other_partition s1 (pk_embedding s2, sk) ∧ other_partition s1 (pk_product_group s2, sk).
Proof.
  intros Hne. unfold other_partition. cbn [fst]. split_and!.
  - by intros ?%pk_embedding_inj.
  - apply pk_embedding_ne_product_group.
  - apply not_eq_sym, pk_embedding_ne_product_group.
  - by intros ?%pk_product_group_inj.
Qed.

(** X5.  An operation run for a tenant leaves every item
    of the partitions of any other sanitized tenant name as it was: all ten
    operations write only under keys built from their own sanitized
    tenant. *)
Theorem tenants_are_isolated (tenant safe other : string) (op : EngineOp F) (w : World F) :
  sanitize_tenant tenant = Ok safe →
  other ≠ safe →
  ∀ sk,
    table (run_op env tenant op w).2 !! (pk_embedding other, sk)
    = table w !! (pk_embedding other, sk)
    ∧ table (run_op env tenant op w).2 !! (pk_product_group other, sk)
      = table w !! (pk_product_group other, sk).
Proof.
  intros Hs Hne sk.
  destruct (other_tenant_partitions safe other sk (not_eq_sym Hne)) as [He Hg].
  split; by apply (run_op_keeps _ tenant safe).
Qed.

End TenantIsolation.

Section TenantAlias.
Context {F : Type} `{!PyFloat F} (env : Env F).

(** X4.  Two tenant strings with the same sanitized form are
    the same tenant to the engine: each of the ten operations returns the
    same result and leaves the same store for both (so ["ac/me"] reads and
    writes the data of ["acme"]). *)
Theorem tenants_with_one_sanitized_form_are_one (tenant1 tenant2 safe : string) :
  sanitize_tenant tenant1 = Ok safe →
  sanitize_tenant tenant2 = Ok safe →
  (∀ image_id embedding metadata (w : World F),
     store_embedding env image_id embedding tenant1 metadata w
     = store_embedding env image_id embedding tenant2 metadata w)
  ∧ (∀ limit (w : World F), get_embeddings tenant1 limit w = get_embeddings tenant2 limit w)
  ∧ (∀ embedding exclude (w : World F),
       find_similar_images embedding tenant1 exclude w
       = find_similar_images embedding tenant2 exclude w)
  ∧ (∀ image_ids name category (w : World F),
       create_product_group env image_ids tenant1 name category w
       = create_product_group env image_ids tenant2 name category w)
  ∧ (∀ image_id group_id (w : World F),
       link_image_to_group env image_id group_id tenant1 w
       = link_image_to_group env image_id group_id tenant2 w)
  ∧ (∀ image_id group_id (w : World F),
       add_image_to_group_record env image_id group_id tenant1 w
       = add_image_to_group_record env image_id group_id tenant2 w)
  ∧ (∀ group_id (w : World F),
       get_product_group_by_id group_id tenant1 w = get_product_group_by_id group_id tenant2 w)
  ∧ (∀ limit (w : World F),
       get_product_groups tenant1 limit w = get_product_groups tenant2 limit w)
  ∧ (∀ image_id buffer metadata (w : World F),
       process_image_for_grouping env image_id buffer tenant1 metadata w
       = process_image_for_grouping env image_id buffer tenant2 metadata w)
  ∧ (∀ images stage include_existing (w : World F),
       batch_process_with_multi_signal env images tenant1 stage include_existing w
       = batch_process_with_multi_signal env images tenant2 stage include_existing w).
Proof.
  intros Hs1 Hs2.
  split_and!; intros;
    try match goal with |- create_product_group _ ?l _ _ _ _ = _ => destruct l; [done|] end;
    unfold store_embedding, get_embeddings, find_similar_images, create_product_group,
      link_image_to_group, add_image_to_group_record, get_product_group_by_id,
      get_product_groups, process_image_for_grouping, batch_process_with_multi_signal;
    by rewrite (lift_sanitize tenant1 safe), (lift_sanitize tenant2 safe).
Qed.

End TenantAlias.

Lemma tenants_with_one_sanitized_form_are_one_witness :
  get_embeddings "ac/me" 10000 batch_world = get_embeddings "acme" 10000 batch_world.
Proof.
  destruct (tenants_with_one_sanitized_form_are_one sample_env "ac/me" "acme" "acme"
              eq_refl eq_refl) as (_ & Hget & _).
  apply Hget.
Defined.

(** ** The embedding repository *)

Section Repository.
Context {F : Type} `{!PyFloat F} (env : Env F).
Implicit Types (w : World F) (item : gmap string (Attr F)).

Lemma partition_items_elem (t : gmap (string * string) (gmap string (Attr F)))
    (pk sk : string) item :
  (sk, item) ∈ partition_items t pk ↔ t !! (pk, sk) = Some item.
Proof.
  unfold partition_items. rewrite merge_sort_Permutation, list_elem_of_fmap. split.
  - intros ([[pk' sk'] item'] & [= -> ->] & [Hpk Hin]%list_elem_of_filter).
    cbn in Hpk. subst pk'. by apply elem_of_map_to_list in Hin.
  - intros Hin. exists ((pk, sk), item). split; [done|].
    apply list_elem_of_filter. split; [done|]. by apply elem_of_map_to_list.
Qed.

Lemma partition_items_values (t : gmap (string * string) (gmap string (Attr F)))
    (pk : string) item :
  item ∈ (partition_items t pk).*2 ↔ ∃ sk, t !! (pk, sk) = Some item.
Proof.
  rewrite list_elem_of_fmap. split.
  - intros ([sk item'] & -> & Hin). exists sk. by apply partition_items_elem.
  - intros [sk Hin]. exists (sk, item). split; [done|]. by apply partition_items_elem.
Qed.

(** *** Reading embeddings *)

Lemma collect_embeddings_sound (limit : N) (items : list (gmap string (Attr F)))
    (acc l : list (ProductEmbedding F)) :
  collect_embeddings limit items acc = Ok l →
  ∃ more, l = acc ++ more
    ∧ (∀ pe, pe ∈ more → ∃ item, item ∈ items ∧ parse_embedding item = Ok (Some pe))
    ∧ ((N.of_nat (length acc) <= limit)%N → (N.of_nat (length l) <= limit)%N).
Proof.
  revert acc. induction items as [|item items IH]; intros acc; cbn [collect_embeddings].
  - intros [= <-]. exists []. rewrite app_nil_r. split; [done|]. split; [|done].
    by intros pe ?%elem_of_nil.
  - destruct (limit <=? N.of_nat (length acc))%N eqn:Hfull.
    { intros [= <-]. exists []. rewrite app_nil_r. split; [done|]. split; [|done].
      by intros pe ?%elem_of_nil. }
    apply N.leb_gt in Hfull.
    destruct (parse_embedding item) as [[pe|]|e] eqn:Hparse; [| |done].
    + intros (more & -> & Hfrom & Hlen)%IH. exists (pe :: more).
      rewrite <- app_assoc. split; [done|]. split.
      * intros pe' [->|Hin]%elem_of_cons.
        -- exists item. split; [by left|done].
        -- destruct (Hfrom pe' Hin) as (item' & ? & ?). exists item'. split; [by right|done].
      * intros _. rewrite <- app_assoc in Hlen. apply Hlen. rewrite length_app. cbn. lia.
    + intros (more & -> & Hfrom & Hlen)%IH. exists more. split; [done|]. split; [|done].
      intros pe' Hin. destruct (Hfrom pe' Hin) as (item' & ? & ?).
      exists item'. split; [by right|done].
Qed.






(** *** Linking *)

Lemma link_image_to_group_run image_id group_id tenant safe w :
  sanitize_tenant tenant = Ok safe →
  let key := (pk_embedding safe, sk_image image_id) in
  let old := default (key_item (pk_embedding safe) (sk_image image_id)) (table w !! key) in
  let new := <["updatedAt" := A_S (strftime_now env)]>
               (<["productGroupId" := A_S group_id]> old) in
  ∃ w', link_image_to_group env image_id group_id tenant w = (Ok (), w')
        ∧ table w' = <[key := new]> (table w).
Proof.
  intros Hs. unfold link_image_to_group. rewrite (lift_sanitize _ safe) by done.
  unfold bind, update_item_set, ret. by eexists.
Qed.

(** X10.  [link_image_to_group] on a stored embedding
    keeps its id, vector and metadata and sets its group: the record reads
    back as the same embedding with [productGroupId] the new group, and no
    other item changes. *)
Theorem link_image_to_group_keeps_embedding (image_id group_id tenant safe : string) w
    (item : gmap string (Attr F)) (pe : ProductEmbedding F) :
  sanitize_tenant tenant = Ok safe →
  table w !! (pk_embedding safe, sk_image image_id) = Some item →
  parse_embedding item = Ok (Some pe) →
  ∃ item' w',
    link_image_to_group env image_id group_id tenant w = (Ok (), w')
    ∧ table w' !! (pk_embedding safe, sk_image image_id) = Some item'
    ∧ parse_embedding item'
      = Ok (Some {| pe_imageId := pe_imageId pe; pe_embedding := pe_embedding pe;
                    pe_productGroupId := Some group_id; pe_metadata := pe_metadata pe |})
    ∧ (∀ k, k ≠ (pk_embedding safe, sk_image image_id) → table w' !! k = table w !! k).
Proof.
  intros Hs Hitem Hparse.
  destruct (link_image_to_group_run image_id group_id tenant safe w Hs) as (w' & Hlink & Ht).
  rewrite Hitem in Ht. cbn [default from_option Datatypes.id] in Ht.
  set (item' := <["updatedAt":=A_S (strftime_now env)]>
                  (<["productGroupId":=A_S group_id]> item)) in Ht.
  exists item', w'. split; [done|]. rewrite Ht, lookup_insert_eq. split; [done|]. split.
  -
    assert (∀ k, k ≠ "updatedAt" → k ≠ "productGroupId" → item' !! k = item !! k) as Hother.
    { intros k Hk1 Hk2. unfold item'. by rewrite !lookup_insert_ne. }
    assert (item' !! "productGroupId" = Some (A_S group_id)) as Hgroup.
    { unfold item'. by rewrite lookup_insert_ne, lookup_insert_eq. }
    unfold parse_embedding in *.
    rewrite (Hother "imageId"), (Hother "embedding"), (Hother "metadata"), Hgroup by done.
    cbn [opt_str_field].
    destruct (item !! "imageId") as [a|]; [|done].
    destruct (item !! "embedding") as [[]|]; try done.
    destruct a; try done.
    destruct (opt_str_field (item !! "productGroupId")); [|done].
    destruct (opt_meta_field (item !! "metadata")); [|done].
    injection Hparse as <-. done.
  - intros k Hk. by rewrite lookup_insert_ne.
Qed.

(** X11.  [link_image_to_group] for an image that has
    no embedding record succeeds and creates a record that holds the link
    only; [get_embeddings] skips that record as corrupted, so every
    embedding read afterwards was in the store before. *)
Theorem link_image_to_group_without_embedding (image_id group_id tenant safe : string) w :
  sanitize_tenant tenant = Ok safe →
  table w !! (pk_embedding safe, sk_image image_id) = None →
  ∃ stub w',
    link_image_to_group env image_id group_id tenant w = (Ok (), w')
    ∧ table w' !! (pk_embedding safe, sk_image image_id) = Some stub
    ∧ parse_embedding stub = Ok None
    ∧ linked w' safe image_id group_id
    ∧ ∀ limit l w'', get_embeddings tenant limit w' = (Ok l, w'') →
        ∀ pe, pe ∈ l →
          ∃ sk item, table w !! (pk_embedding safe, sk) = Some item
                     ∧ parse_embedding item = Ok (Some pe).
Proof.
  intros Hs Hnone.
  destruct (link_image_to_group_run image_id group_id tenant safe w Hs) as (w' & Hlink & Ht).
  rewrite Hnone in Ht. cbn [default from_option Datatypes.id] in Ht.
  eexists _, w'. split; [done|]. rewrite Ht, lookup_insert_eq. split; [done|].
  split; [reflexivity|]. split.
  - eexists. rewrite Ht, lookup_insert_eq. split; [done|].
    by rewrite lookup_insert_ne, lookup_insert_eq.
  - intros limit l w'' Hget pe Hpe.
    unfold get_embeddings in Hget. rewrite (lift_sanitize _ safe) in Hget by done.
    unfold bind, query, lift in Hget.
    destruct (collect_embeddings _ _ _) as [l'|e] eqn:Hcollect; [|done].
    injection Hget as -> _.
    apply collect_embeddings_sound in Hcollect as (more & -> & Hfrom & _).
    destruct (Hfrom pe Hpe) as (item & [sk Hitem]%partition_items_values & Hparse).
    rewrite Ht in Hitem.
    destruct (decide ((pk_embedding safe, sk) = (pk_embedding safe, sk_image image_id)))
      as [Heq|Hne].
    + rewrite Heq, lookup_insert_eq in Hitem. injection Hitem as <-. done.
    + rewrite lookup_insert_ne in Hitem by done. by exists sk, item.
Qed.

End Repository.

(** ** Product groups *)

Section Groups.
Context {F : Type} `{!PyFloat F} (env : Env F).
Implicit Types (w : World F) (item : gmap string (Attr F)).


(** X13.  [add_image_to_group_record] on a group id that
    has no record raises a validation error and leaves a record behind that
    holds the image id and no other field of a group; from then on adding
    the image again and [get_product_group_by_id] for that id raise the
    validation error too. *)
Theorem add_image_to_missing_group (image_id group_id tenant safe : string) w :
  sanitize_tenant tenant = Ok safe →
  table w !! (pk_product_group safe, sk_group group_id) = None →
  ∃ stub w',
    add_image_to_group_record env image_id group_id tenant w = (Err ValidationError, w')
    ∧ table w' = <[(pk_product_group safe, sk_group group_id) := stub]> (table w)
    ∧ stub !! "imageIds" = Some (A_L [image_id])
    ∧ parse_group stub = Err ValidationError
    ∧ (add_image_to_group_record env image_id group_id tenant w').1 = Err ValidationError
    ∧ (get_product_group_by_id (F:=F) group_id tenant w').1 = Err ValidationError.
Proof.
  intros Hs Hnone.
  set (stub := <["updatedAt" := A_S (strftime_now env)]>
                 (<["imageIds" := A_L [image_id]]>
                    (key_item (F:=F) (pk_product_group safe) (sk_group group_id)))).
  assert (parse_group stub = Err ValidationError) as Hstub by reflexivity.
  assert (stub !! "imageIds" = Some (A_L [image_id])) as Hids by reflexivity.
  assert (∀ t w1, sanitize_tenant t = Ok safe →
            table w1 !! (pk_product_group safe, sk_group group_id) = Some stub →
            (get_product_group_by_id (F:=F) group_id t w1).1 = Err ValidationError)
    as Hget.
  { intros t w1 Ht Hw1. unfold get_product_group_by_id.
    rewrite (lift_sanitize _ safe) by done. unfold bind, get_item. rewrite Hw1.
    unfold lift. by rewrite Hstub. }
  exists stub. eexists. split; [|split; [|split; [exact Hids|split; [exact Hstub|split]]]].
  - unfold add_image_to_group_record. rewrite (lift_sanitize _ safe) by done.
    unfold try_except, bind at 1, update_item_append. rewrite Hnone.
    cbn [default from_option Datatypes.id].
    change (key_item (pk_product_group safe) (sk_group group_id) !! "imageIds")
      with (@None (Attr F)).
    cbn [attr_contains app]. fold stub. unfold bind, lift. rewrite Hstub. reflexivity.
  - reflexivity.
  - unfold add_image_to_group_record. rewrite (lift_sanitize _ safe) by done.
    unfold try_except, bind at 1.
    erewrite update_item_append_present;
      [|cbn [set_table table]; apply lookup_insert_eq|exact Hids|by left].
    match goal with |- (?m ?w1).1 = _ =>
      pose proof (Hget safe w1 (sanitize_tenant_idemp _ _ Hs)) as Hg end.
    apply Hg. cbn [log_request set_table table]. apply lookup_insert_eq.
  - apply Hget; [done|]. cbn [set_table table]. apply lookup_insert_eq.
Qed.

(** *** Listing groups *)

Lemma parse_groups_Ok (items : list (gmap string (Attr F))) (acc l : list (ProductGroup F))
    w w' :
  for_each items (λ item groups, let* group := lift (parse_group item) in ret (groups ++ [group]))
    acc w = (Ok l, w') →
  w' = w ∧ ∃ gs, l = acc ++ gs ∧ Forall2 (λ item g, parse_group item = Ok g) items gs.
Proof.
  revert acc. induction items as [|item items IH]; intros acc; cbn [for_each].
  - intros [= <- <-]. split; [done|]. exists []. by rewrite app_nil_r.
  - unfold bind at 1, bind at 1, lift at 1.
    destruct (parse_group item) as [g|e] eqn:Hparse; [|done].
    unfold ret at 1. intros (-> & gs & -> & Hall)%IH. split; [done|].
    exists (g :: gs). rewrite <- app_assoc. split; [done|]. by constructor.
Qed.

Lemma parse_groups_Err (items : list (gmap string (Attr F))) (acc : list (ProductGroup F))
    w item e :
  item ∈ items → parse_group item = Err e →
  for_each items (λ item groups, let* group := lift (parse_group item) in ret (groups ++ [group]))
    acc w = (Err ValidationError, w).
Proof.
  revert acc. induction items as [|item' items IH]; intros acc Hin Hparse;
    [by apply elem_of_nil in Hin|].
  cbn [for_each]. unfold bind at 1, bind at 1, lift at 1.
  destruct (parse_group item') as [g|e'] eqn:Hparse'.
  - unfold ret at 1. apply IH; [|done].
    apply elem_of_cons in Hin as [->|Hin]; [congruence|done].
  - by apply parse_group_Err in Hparse' as ->.
Qed.

Lemma parse_groups_world (items : list (gmap string (Attr F))) (acc : list (ProductGroup F)) w :
  (for_each items (λ item groups, let* group := lift (parse_group item) in ret (groups ++ [group]))
     acc w).2 = w.
Proof.
  revert acc. induction items as [|item items IH]; intros acc; [done|].
  cbn [for_each]. unfold bind at 1, bind at 1, lift at 1.
  destruct (parse_group item); [|done]. apply IH.
Qed.

(** X14.  For a positive limit, [get_product_groups] changes no
    item; when it returns, it returns at most [limit] groups, each parsed
    from a record of the tenant's group partition.  When the partition holds
    no more than [limit] records (and the store answers the one query in one
    page, as [query] does), every record that parses is listed, and a single
    record that does not parse makes the whole call raise. *)
Theorem get_product_groups_lists_records (tenant safe : string) (limit : nat) w :
  sanitize_tenant tenant = Ok safe →
  (0 < limit)%nat →
  table (get_product_groups (F:=F) tenant limit w).2 = table w
  ∧ (∀ l w', get_product_groups tenant limit w = (Ok l, w') →
       (length l ≤ limit)%nat
       ∧ ∀ g, g ∈ l →
           ∃ sk item, table w !! (pk_product_group safe, sk) = Some item
                      ∧ parse_group item = Ok g)
  ∧ ((length (partition_items (table w) (pk_product_group safe)) ≤ limit)%nat →
     (∀ l w', get_product_groups tenant limit w = (Ok l, w') →
        ∀ sk item g, table w !! (pk_product_group safe, sk) = Some item →
                     parse_group item = Ok g → g ∈ l)
     ∧ (∀ sk item e, table w !! (pk_product_group safe, sk) = Some item →
                     parse_group item = Err e →
                     (get_product_groups (F:=F) tenant limit w).1 = Err ValidationError)).
Proof.
  intros Hs Hlimit.
  set (items := reverse (partition_items (table w) (pk_product_group safe)).*2).
  assert (get_product_groups tenant limit w
          = for_each (take limit items)
              (λ item groups, let* group := lift (parse_group item) in ret (groups ++ [group]))
              [] (log_request Query (pk_product_group safe) None w)) as Hrun.
  { unfold get_product_groups. by rewrite (lift_sanitize _ safe). }
  assert (∀ item, item ∈ items ↔ ∃ sk, table w !! (pk_product_group safe, sk) = Some item)
    as Hitems.
  { intros item. unfold items. rewrite elem_of_reverse. apply partition_items_values. }
  split; [|split].
  - rewrite Hrun, parse_groups_world. done.
  - intros l w' Hget. rewrite Hrun in Hget.
    apply parse_groups_Ok in Hget as (_ & gs & -> & Hall). cbn [app].
    split.
    + rewrite <- (Forall2_length _ _ _ Hall), length_take. lia.
    + intros g Hg. apply list_elem_of_lookup in Hg as [i Hi].
      destruct (Forall2_lookup_r _ _ _ _ _ Hall Hi) as (item & Hitem & Hparse).
      apply list_elem_of_lookup_2, subseteq_take, Hitems in Hitem as [sk Hsk].
      by exists sk, item.
  - intros Hfit.
    assert (take limit items = items) as Htake.
    { apply take_ge. unfold items. rewrite length_reverse, length_fmap. done. }
    rewrite Hrun, Htake. split.
    + intros l w' Hget sk item g Hitem Hparse.
      apply parse_groups_Ok in Hget as (_ & gs & -> & Hall). cbn [app].
      assert (item ∈ items) as Hin by (apply Hitems; by exists sk).
      apply list_elem_of_lookup in Hin as [i Hi].
      destruct (Forall2_lookup_l _ _ _ _ _ Hall Hi) as (g' & Hg' & Hparse').
      assert (g' = g) as -> by congruence. by eapply list_elem_of_lookup_2.
    + intros sk item e Hitem Hparse.
      erewrite parse_groups_Err; [done| |exact Hparse]. apply Hitems. by exists sk.
Qed.

End Groups.

(** ** Rejected images, scores that are no numbers, clustering and batches *)

Section Rejections.
Context {F : Type} `{!PyFloat F} (env : Env F).

(** X15.  When the image is refused before an embedding
    exists (a buffer over 20MB, an empty buffer, or a model answer without a
    non-empty embedding), [process_image_for_grouping] raises the
    corresponding error and leaves the store and its request log exactly as
    they were: nothing of the image is stored. *)
Theorem process_image_rejected (image_id : string) (image_buffer : list Byte.byte)
    (tenant safe : string) (metadata : option Metadata) (w : World F) :
  sanitize_tenant tenant = Ok safe →
  ((MAX_IMAGE_SIZE < len image_buffer)%N →
     process_image_for_grouping env image_id image_buffer tenant metadata w
     = (Err ImageTooLargeError, w))
  ∧ (image_buffer = [] →
     process_image_for_grouping env image_id image_buffer tenant metadata w
     = (Err EmptyImageError, w))
  ∧ (image_buffer ≠ [] → (len image_buffer <= MAX_IMAGE_SIZE)%N →
     invoke_model env image_buffer = None ∨ invoke_model env image_buffer = Some [] →
     process_image_for_grouping env image_id image_buffer tenant metadata w
     = (Err InvalidEmbeddingResponse, w)).
Proof.
  intros Hs. unfold process_image_for_grouping.
  rewrite (lift_sanitize _ safe) by done. unfold bind at 1, generate_image_embedding.
  split; [|split].
  - intros Hbig. apply N.ltb_lt in Hbig. by rewrite Hbig.
  - intros ->. reflexivity.
  - intros Hne Hsmall Hmodel.
    assert ((MAX_IMAGE_SIZE <? len image_buffer)%N = false) as -> by (apply N.ltb_ge; lia).
    rewrite (is_nil_false _ Hne). by destruct Hmodel as [-> | ->].
Qed.

End Rejections.

Section NotANumber.
Context {F : Type} `{!PyFloat F} `{!PyFloatOrder F}.

(** X3.  A score that is not a number (one that does not
    compare [>=] to itself, as NaN) is classified DIFFERENT. *)
Theorem classify_similarity_not_a_number (s : F) :
  (s >=~ s) = false → classify_similarity s = DIFFERENT.
Proof.
  intros Hnan. unfold classify_similarity.
  assert (∀ t, (s >=~ t) = false) as Hcmp.
  { intros t. destruct (s >=~ t) eqn:E; [|done].
    apply fge_number_l in E. congruence. }
  by rewrite !Hcmp.
Qed.

End NotANumber.

Lemma classify_similarity_not_a_number_witness :
  classify_similarity PrimFloat.nan = DIFFERENT.
Proof. apply classify_similarity_not_a_number. reflexivity. Defined.

Section CosineClustering.
Context {F : Type} `{!PyFloat F}.

Lemma pair_similarity_off image_metadata_map settings (item other : ProductEmbedding F) :
  pair_similarity false image_metadata_map settings item other
  = cosine_similarity (pe_embedding item) (pe_embedding other).
Proof. reflexivity. Qed.

(** X17.  Without multi-signal scoring, for embeddings of
    pairwise-distinct ids that all have one non-zero dimension,
    [cluster_by_similarity] never raises: it returns the seed-based clusters
    under the cosine similarity; they are non-empty and together hold every
    input id once. *)
Theorem cluster_by_cosine (embeddings : list (ProductEmbedding F)) (threshold : F)
    (dimension : nat)
    (image_metadata_map : option (gmap string (ImageFeatures F)))
    (settings : option (MultiSignalSettings F)) :
  NoDup (pe_imageId <$> embeddings) →
  dimension ≠ 0%nat →
  Forall (λ e, length (pe_embedding e) = dimension) embeddings →
  ∃ clusters,
    cluster_by_similarity embeddings threshold false image_metadata_map settings = Ok clusters
    ∧ clusters
      = seed_clusters
          (scored (λ item other, cosine_similarity (pe_embedding item) (pe_embedding other)))
          threshold embeddings
    ∧ concat clusters ≡ₚ pe_imageId <$> embeddings
    ∧ Forall (λ cluster, cluster ≠ []) clusters.
Proof.
  intros Hnd Hdim Hall. eexists. split; [|split; [reflexivity|split]].
  - unfold cluster_by_similarity, cluster_with.
    rewrite (cluster_loop_ext _
               (λ item other,
                  Ok (scored (λ item other,
                                cosine_similarity (pe_embedding item) (pe_embedding other))
                        item other))).
    + by apply cluster_with_seed_clusters.
    + intros i o Hi Ho. rewrite pair_similarity_off. unfold scored.
      rewrite Forall_forall in Hall.
      destruct (cosine_similarity_total (pe_embedding i) (pe_embedding o)) as [s ->];
        [by rewrite !Hall| |done].
      intros Hnil. specialize (Hall _ Hi). rewrite Hnil in Hall. by subst dimension.
  - apply seed_clusters_concat.
  - apply Forall_forall. intros cluster. apply seed_clusters_nonempty.
Qed.

(** X18.  [cluster_by_similarity] does not skip a pair it
    cannot score: when the first two embeddings have different ids and their
    cosine similarity raises (an empty vector, or different dimensions), the
    whole clustering raises that error. *)
Theorem cluster_by_similarity_bad_pair (first second : ProductEmbedding F)
    (rest : list (ProductEmbedding F)) (threshold : F)
    (image_metadata_map : option (gmap string (ImageFeatures F)))
    (settings : option (MultiSignalSettings F)) (e : PyError) :
  pe_imageId first ≠ pe_imageId second →
  cosine_similarity (pe_embedding first) (pe_embedding second) = Err e →
  cluster_by_similarity (first :: second :: rest) threshold false image_metadata_map settings
  = Err e.
Proof.
  intros Hids Hcos. unfold cluster_by_similarity, cluster_with.
  cbn [cluster_loop]. rewrite bool_decide_eq_false_2 by set_solver.
  cbn [cluster_scan]. rewrite bool_decide_eq_true_2 by set_solver.
  rewrite bool_decide_eq_false_2 by set_solver.
  by rewrite pair_similarity_off, Hcos.
Qed.

End CosineClustering.

Section BatchAccounting.
Context {F : Type} `{!PyFloat F}.

(** X19.  The stand-in for the batch embedding service
    accounts for every image by its size alone: the errors are the ids of
    the oversized images in batch order, the embeddings are keyed by the
    distinct ids of the others, each with the vector [[0.1] * 1024]; the two
    counts add up to no more than the batch size, and to exactly the batch
    size when the ids are pairwise distinct. *)
Theorem batch_embeddings_account_for_every_image (images : list BatchImage) :
  let result := _generate_batch_image_embeddings (F:=F) (batch_inputs images) in
  (errors result).*1 = failed_ids images
  ∧ NoDup (embeddings result).*1
  ∧ (∀ id, id ∈ (embeddings result).*1 ↔ id ∈ embedded_ids images)
  ∧ Forall (λ entry, entry.2 = repeat (dec 1 10) 1024) (embeddings result)
  ∧ successCount result = size (embedded_ids images)
  ∧ failureCount result = length (failed_ids images)
  ∧ (successCount result + failureCount result ≤ length images)%nat
  ∧ (NoDup (img_id <$> images) →
     (successCount result + failureCount result = length images)%nat).
Proof.
  intros result.
  destruct (embed_all_spec (F:=F) images ([], [])) as (Hnd & Hkeys & Hvals & Herrs).
  cbn [fst snd fmap list_fmap app] in Hnd, Hkeys, Hvals, Herrs.
  specialize (Hnd (NoDup_nil_2)). specialize (Hvals (Forall_nil_2 _)).
  change (foldl embed_one ([], []) (batch_inputs images)).1 with (embeddings result)
    in Hnd, Hkeys, Hvals.
  change (foldl embed_one ([], []) (batch_inputs images)).2 with (errors result) in Herrs.
  assert (list_to_set (embeddings result).*1 = embedded_ids images) as Hset.
  { apply set_eq. intros id. unfold embedded_ids. rewrite !elem_of_list_to_set, Hkeys.
    split; [intros [?%elem_of_nil|?]; done|by right]. }
  assert (successCount result = size (embedded_ids images)) as Hsuccess.
  { change (successCount result) with (length (embeddings result)).
    rewrite <- Hset, size_list_to_set by done. by rewrite length_fmap. }
  assert (failureCount result = length (failed_ids images)) as Hfailure.
  { change (failureCount result) with (length (errors result)).
    by rewrite <- Herrs, length_fmap. }
  assert (length (filter (λ img, oversized img = false) images)
          + length (filter (λ img, oversized img = true) images) = length images)%nat
    as Hsplit.
  { clear. induction images as [|img images IH]; [done|].
    rewrite !filter_cons. destruct (oversized img) eqn:Hbig; cbn [length].
    - rewrite decide_False, decide_True by done. cbn [length]. lia.
    - rewrite decide_True, decide_False by done. cbn [length]. lia. }
  split; [done|]. split; [done|]. split.
  { intros id. by rewrite <- Hset, elem_of_list_to_set. }
  split; [done|]. split; [done|]. split; [done|].
  assert (length (embeddings result) ≤ length (filter (λ img, oversized img = false) images))%nat
    as Hle.
  { rewrite <- (length_fmap fst), <- (length_fmap img_id (filter _ images)).
    apply submseteq_length, NoDup_submseteq; [done|].
    intros id Hid. apply Hkeys in Hid as [?%elem_of_nil|?]; done. }
  change (successCount result) with (length (embeddings result)).
  rewrite Hfailure. unfold failed_ids. rewrite length_fmap.
  split; [lia|].
  intros Hids.
  assert (length (embeddings result) = length (filter (λ img, oversized img = false) images))
    as ->; [|lia].
  rewrite <- (length_fmap fst), <- (length_fmap img_id (filter _ images)).
  apply Permutation_length, NoDup_Permutation; [done| |].
  - eapply sublist_NoDup; [exact Hids|]. apply fmap_sublist, sublist_filter.
  - intros id. rewrite Hkeys. split; [intros [?%elem_of_nil|?]; done|by right].
Qed.

End BatchAccounting.

Section BatchShape.
Context {F : Type} `{!PyFloat F} `{!PyFloatOrder F} (env : Env F).








End BatchShape.

(** ** What the store keeps *)

Section NoDeletion.
Context {F : Type} `{!PyFloat F} (env : Env F).

Lemma retains_ret {A} (a : A) : retains (F:=F) (ret a).
Proof. by intros w k. Qed.

Lemma retains_raise {A} e : retains (raise e : M F A).
Proof. by intros w k. Qed.

Lemma retains_lift {A} (r : Result A) : retains (F:=F) (lift r).
Proof. intros w k. unfold lift. by destruct r. Qed.

Lemma retains_bind {A B} (m : M F A) (f : A → M F B) :
  retains m → (∀ a, retains (f a)) → retains (bind m f).
Proof.
  intros Hm Hf w k Hk. unfold bind. specialize (Hm w k Hk).
  destruct (m w) as [[a|e] w1]; [|done]. by apply Hf.
Qed.

Lemma retains_try_except {A} (m : M F A) (h : PyError → M F A) :
  retains m → (∀ e, retains (h e)) → retains (try_except m h).
Proof.
  intros Hm Hh w k Hk. unfold try_except. specialize (Hm w k Hk).
  destruct (m w) as [[a|e] w1]; [done|]. by apply Hh.
Qed.

Lemma retains_for_each {A S} (xs : list A) (body : A → S → M F S) acc :
  (∀ x acc, retains (body x acc)) → retains (for_each xs body acc).
Proof.
  intros Hbody. revert acc. induction xs as [|x xs IH]; intros acc; [apply retains_ret|].
  cbn [for_each]. apply retains_bind; [apply Hbody|]. intros acc'. apply IH.
Qed.

Lemma insert_retains (t : gmap (string * string) (gmap string (Attr F))) k' item k :
  is_Some (t !! k) → is_Some (<[k' := item]> t !! k).
Proof.
  intros Hk. destruct (decide (k' = k)) as [->|Hne].
  - rewrite lookup_insert_eq. by eexists.
  - by rewrite lookup_insert_ne.
Qed.

Lemma retains_put_item pk sk (item : gmap string (Attr F)) : retains (put_item pk sk item).
Proof. intros w k Hk. cbn. by apply insert_retains. Qed.

Lemma retains_get_item pk sk : retains (F:=F) (get_item pk sk).
Proof. by intros w k. Qed.

Lemma retains_update_item_set pk sk (sets : list (string * Attr F)) :
  retains (update_item_set pk sk sets).
Proof. intros w k Hk. cbn. by apply insert_retains. Qed.

Lemma retains_update_item_append pk sk a x now :
  retains (F:=F) (update_item_append pk sk a x now).
Proof.
  intros w k Hk. unfold update_item_append.
  repeat case_match; cbn [snd set_table table log_request]; try done;
    by apply insert_retains.
Qed.

Lemma retains_query pk forward : retains (F:=F) (query pk forward).
Proof. by intros w k. Qed.

Lemma retains_draw_uuid : retains (draw_uuid env).
Proof. by intros w k. Qed.

Ltac retained :=
  repeat first
    [ progress cbv beta zeta
    | match goal with |- ∀ _, _ => intro end
    | match goal with |- retains (bind _ _) => apply retains_bind end
    | match goal with |- retains (try_except _ _) => apply retains_try_except end
    | match goal with |- retains (for_each _ _ _) => apply retains_for_each end
    | match goal with |- retains (ret _) => apply retains_ret end
    | match goal with |- retains (raise _) => apply retains_raise end
    | match goal with |- retains (lift _) => apply retains_lift end
    | match goal with |- retains (put_item _ _ _) => apply retains_put_item end
    | match goal with |- retains (get_item _ _) => apply retains_get_item end
    | match goal with |- retains (update_item_set _ _ _) => apply retains_update_item_set end
    | match goal with |- retains (update_item_append _ _ _ _ _) =>
        apply retains_update_item_append end
    | match goal with |- retains (query _ _) => apply retains_query end
    | match goal with |- retains (draw_uuid _) => apply retains_draw_uuid end
    | match goal with |- retains (match ?x with _ => _ end) => destruct x end
    | match goal with |- retains (if ?x then _ else _) => destruct x end ].

Lemma retains_store_embedding image_id embedding tenant metadata :
  retains (store_embedding env image_id embedding tenant metadata).
Proof. unfold store_embedding. retained. Qed.

Lemma retains_get_embeddings tenant limit : retains (F:=F) (get_embeddings tenant limit).
Proof. unfold get_embeddings. retained. Qed.

Lemma retains_find_similar_images embedding tenant exclude :
  retains (F:=F) (find_similar_images embedding tenant exclude).
Proof. unfold find_similar_images. retained. apply retains_get_embeddings. Qed.

Lemma retains_link_image_to_group image_id group_id tenant :
  retains (link_image_to_group env image_id group_id tenant).
Proof. unfold link_image_to_group. retained. Qed.

Lemma retains_create_product_group image_ids tenant name cat :
  retains (create_product_group env image_ids tenant name cat).
Proof. unfold create_product_group. retained. apply retains_link_image_to_group. Qed.

Lemma retains_get_product_group_by_id group_id tenant :
  retains (F:=F) (get_product_group_by_id group_id tenant).
Proof. unfold get_product_group_by_id. retained. Qed.

Lemma retains_add_image_to_group_record image_id group_id tenant :
  retains (add_image_to_group_record env image_id group_id tenant).
Proof.
  unfold add_image_to_group_record. retained. apply retains_get_product_group_by_id.
Qed.

Lemma retains_get_product_groups tenant limit :
  retains (F:=F) (get_product_groups tenant limit).
Proof. unfold get_product_groups. retained. Qed.

Lemma retains_generate_image_embedding buffer :
  retains (generate_image_embedding env buffer).
Proof. unfold generate_image_embedding. retained. Qed.

Lemma retains_process_image_for_grouping image_id buffer tenant metadata :
  retains (process_image_for_grouping env image_id buffer tenant metadata).
Proof.
  unfold process_image_for_grouping.
  apply retains_bind; [apply retains_lift|intros safe].
  apply retains_bind; [apply retains_generate_image_embedding|intros embedding].
  apply retains_bind; [apply retains_store_embedding|intros _].
  apply retains_bind; [apply retains_find_similar_images|intros similar].
  apply retains_bind; [|retained].
  destruct (head similar) as [best|]; [|retained].
  destruct (_ && _).
  { apply retains_bind; [|retained]. apply retains_try_except; [|retained].
    apply retains_bind; [apply retains_link_image_to_group|intros _].
    apply retains_add_image_to_group_record. }
  destruct (_ || _); [|retained].
  apply retains_bind; [apply retains_create_product_group|retained].
Qed.

Lemma retains_batch_process images tenant stage include_existing :
  retains (batch_process_with_multi_signal env images tenant stage include_existing).
Proof.
  unfold batch_process_with_multi_signal.
  apply retains_bind; [apply retains_lift|intros safe].
  apply retains_bind.
  { apply retains_for_each. intros entry acc. unfold keep_embedding.
    apply retains_bind; [|retained]. apply retains_try_except; [|retained].
    apply retains_store_embedding. }
  intros new_embeddings. apply retains_bind.
  { unfold gather_embeddings. destruct include_existing; [|retained].
    apply retains_bind; [apply retains_get_embeddings|retained]. }
  intros all_embeddings. apply retains_bind; [retained|]. intros clusters.
  apply retains_bind; [|retained].
  apply retains_for_each. intros ids acc. unfold materialize_cluster.
  destruct (negb _); [retained|]. destruct (1 <? _)%nat; [|retained].
  apply retains_bind; [apply retains_create_product_group|retained].
Qed.

(** X6.  No operation of the engine removes an item: a key
    that holds an item before an operation, for whatever tenant and whether
    the operation returns or raises, holds an item after it. *)
Theorem engine_never_deletes (tenant : string) (op : EngineOp F) (w : World F)
    (k : string * string) :
  is_Some (table w !! k) → is_Some (table (run_op env tenant op w).2 !! k).
Proof.
  destruct op; cbn [run_op snd].
  - apply retains_store_embedding.
  - apply retains_get_embeddings.
  - apply retains_find_similar_images.
  - apply retains_create_product_group.
  - apply retains_link_image_to_group.
  - apply retains_add_image_to_group_record.
  - apply retains_get_product_group_by_id.
  - apply retains_get_product_groups.
  - apply retains_process_image_for_grouping.
  - apply retains_batch_process.
Qed.

End NoDeletion.

Section StoredEmbedding.
Context {F : Type} `{!PyFloat F} (env : Env F).
Context (safe image_id : string) (embedding : list F).








End StoredEmbedding.

Section Uploads.
Context {F : Type} `{!PyFloat F} (env : Env F).


End Uploads.

(** ** The further properties on sample data *)

Lemma tenants_are_isolated_witness :
  table (run_op sample_env "ac/me" (OpStoreEmbedding "a" [of_int 1] None)
           two_uploads_world).2 !! (pk_embedding "globex", sk_image "a")
  = table two_uploads_world !! (pk_embedding "globex", sk_image "a")
  ∧ table (run_op sample_env "ac/me" (OpStoreEmbedding "a" [of_int 1] None)
             two_uploads_world).2 !! (pk_product_group "globex", sk_image "a")
    = table two_uploads_world !! (pk_product_group "globex", sk_image "a").
Proof.
  apply (tenants_are_isolated sample_env "ac/me" "acme" "globex"); [reflexivity|discriminate].
Defined.




Lemma link_image_to_group_keeps_embedding_witness :
  ∃ item' w',
    link_image_to_group sample_env "a" "pg_1" "acme" two_uploads_world = (Ok (), w')
    ∧ table w' !! (pk_embedding "acme", sk_image "a") = Some item'
    ∧ parse_embedding item'
      = Ok (Some {| pe_imageId := "a"; pe_embedding := [of_int 1; of_int 0];
                    pe_productGroupId := Some "pg_1"; pe_metadata := None |}).
Proof.
  destruct (link_image_to_group_keeps_embedding sample_env "a" "pg_1" "acme" "acme"
              two_uploads_world
              (default ∅ (table two_uploads_world !! (pk_embedding "acme", sk_image "a")))
              {| pe_imageId := "a"; pe_embedding := [of_int 1; of_int 0];
                 pe_productGroupId := Some "pg_0000-0"; pe_metadata := None |})
    as (item' & w' & Hrun & Hitem & Hparse & _).
  - reflexivity.
  - vm_compute. reflexivity.
  - vm_compute. reflexivity.
  - exists item', w'. split; [exact Hrun|]. split; [exact Hitem|exact Hparse].
Defined.

Lemma link_image_to_group_without_embedding_witness :
  ∃ stub w',
    link_image_to_group sample_env "ghost" "pg_1" "acme" empty_world = (Ok (), w')
    ∧ table w' !! (pk_embedding "acme", sk_image "ghost") = Some stub
    ∧ parse_embedding stub = Ok None.
Proof.
  destruct (link_image_to_group_without_embedding sample_env "ghost" "pg_1" "acme" "acme"
              empty_world eq_refl eq_refl) as (stub & w' & Hrun & Hitem & Hparse & _).
  exists stub, w'. split; [exact Hrun|]. split; [exact Hitem|exact Hparse].
Defined.


Lemma add_image_to_missing_group_witness :
  ∃ stub w',
    add_image_to_group_record sample_env "a" "pg_none" "acme" empty_world
    = (Err ValidationError, w')
    ∧ table w' !! (pk_product_group "acme", sk_group "pg_none") = Some stub
    ∧ parse_group stub = Err ValidationError.
Proof.
  destruct (add_image_to_missing_group sample_env "a" "pg_none" "acme" "acme" empty_world
              eq_refl eq_refl) as (stub & w' & Hrun & Htable & _ & Hparse & _).
  exists stub, w'. split; [exact Hrun|]. split; [|exact Hparse].
  rewrite Htable. apply lookup_insert_eq.
Defined.

Lemma get_product_groups_lists_records_witness :
  table (get_product_groups (F:=PrimFloat.float) "acme" 100 grouped_world).2
  = table grouped_world.
Proof.
  destruct (get_product_groups_lists_records "acme" "acme" 100 grouped_world eq_refl)
    as (Htable & _); [|exact Htable].
  apply Nat.lt_0_succ.
Defined.

Lemma process_image_rejected_witness :
  process_image_for_grouping sample_env "a" [] "acme" None two_uploads_world
  = (Err EmptyImageError, two_uploads_world).
Proof.
  destruct (process_image_rejected sample_env "a" [] "acme" "acme" None two_uploads_world
              eq_refl) as (_ & Hempty & _).
  apply Hempty. reflexivity.
Defined.

Lemma cluster_by_cosine_witness :
  ∃ clusters,
    cluster_by_similarity sample_embeddings (dec 85 100) false None None = Ok clusters
    ∧ concat clusters ≡ₚ pe_imageId <$> sample_embeddings.
Proof.
  destruct (cluster_by_cosine sample_embeddings (dec 85 100) 2 None None)
    as (clusters & Hrun & _ & Hperm & _).
  - apply (bool_decide_unpack _). vm_compute. exact I.
  - discriminate.
  - repeat constructor.
  - exists clusters. split; [exact Hrun|exact Hperm].
Defined.

Lemma cluster_by_similarity_bad_pair_witness :
  cluster_by_similarity
    [ {| pe_imageId := "a"; pe_embedding := [of_int 1; of_int 0];
         pe_productGroupId := None; pe_metadata := None |};
      {| pe_imageId := "b"; pe_embedding := [of_int 1];
         pe_productGroupId := None; pe_metadata := None |} ]
    (dec 92 100 : PrimFloat.float) false None None
  = Err (DimensionMismatchError 2 1).
Proof.
  apply cluster_by_similarity_bad_pair; [discriminate|reflexivity].
Defined.



Lemma engine_never_deletes_witness :
  is_Some (table (run_op sample_env "acme" (OpStoreEmbedding "a" [of_int 1] None)
                    two_uploads_world).2 !! (pk_embedding "acme", sk_image "b")).
Proof.
  apply engine_never_deletes. apply (bool_decide_unpack _). vm_compute. exact I.
Defined.

